(** * Chess-Game-AI: the session controller and the one-ply move selector

    A shallow embedding of [ai_project/app.py].  The program is a Tkinter
    front end over the [python-chess] library: the library is the rules
    engine (board, legal moves, push/pop, end-of-game detection) and is
    consumed through the interface [RulesEngine] below; everything that
    [app.py] itself defines ([evaluate_board], [make_ai_move],
    [get_square_from_mouse], [redraw_board], [on_square_click],
    [trigger_ai_move], [execute_ai_move], [check_game_over]) is translated
    line by line. *)

From Stdlib Require Import ZArith List Bool String Lia.
Import ListNotations.

Local Open Scope Z_scope.

(** ** Data of the rules engine, as [app.py] sees it *)

(** [chess.WHITE] / [chess.BLACK]. *)
Inductive Color : Type := WHITE | BLACK.

(** [chess.PAWN] ... [chess.KING]. *)
Inductive PieceType : Type := PAWN | KNIGHT | BISHOP | ROOK | QUEEN | KING.

(** [chess.Piece]: a piece type and a colour. *)
Record Piece : Type := mkPiece { piece_type : PieceType; color : Color }.

(** [chess.Square] is a Python [int]; a1 = 0, b1 = 1, ..., h8 = 63. *)
Definition Square : Type := Z.

(** [chess.Move(from_square, to_square, promotion=...)]. *)
Record Move : Type := mkMove {
  from_square : Square;
  to_square : Square;
  promotion : option PieceType
}.

Definition Color_eqb (a b : Color) : bool :=
  match a, b with
  | WHITE, WHITE | BLACK, BLACK => true
  | _, _ => false
  end.

Definition PieceType_eqb (a b : PieceType) : bool :=
  match a, b with
  | PAWN, PAWN | KNIGHT, KNIGHT | BISHOP, BISHOP
  | ROOK, ROOK | QUEEN, QUEEN | KING, KING => true
  | _, _ => false
  end.

Definition promotion_eqb (a b : option PieceType) : bool :=
  match a, b with
  | None, None => true
  | Some x, Some y => PieceType_eqb x y
  | _, _ => false
  end.

(** Equality of two [chess.Move] values (field by field). *)
Definition Move_eqb (a b : Move) : bool :=
  (from_square a =? from_square b) && (to_square a =? to_square b)
  && promotion_eqb (promotion a) (promotion b).

Definition opposite (c : Color) : Color :=
  match c with WHITE => BLACK | BLACK => WHITE end.

(** [chess.SQUARES = range(64)]. *)
Definition SQUARES : list Square := map Z.of_nat (seq 0 64).

(** [chess.square(file_index, rank_index)]. *)
Definition square (file_index rank_index : Z) : Square :=
  rank_index * 8 + file_index.

(** [chess.square_rank(square)] is [square >> 3]. *)
Definition square_rank (sq : Square) : Z := Z.shiftr sq 3.

(** The part of [chess.Board] that [app.py] calls.  [legal_moves b] is
    [list(board.legal_moves)] and [is_legal b m] is
    [m in board.legal_moves], the library's own membership test; [push]
    and [pop] return the board after the in-place update; [start_board]
    is [chess.Board()]. *)
Class RulesEngine (Board : Type) : Type := {
  start_board : Board;
  piece_at : Board -> Square -> option Piece;
  turn : Board -> Color;
  legal_moves : Board -> list Move;
  is_legal : Board -> Move -> bool;
  push : Board -> Move -> Board;
  pop : Board -> Board;
  is_game_over : Board -> bool;
  is_checkmate : Board -> bool;
  is_stalemate : Board -> bool;
  result : Board -> string
}.

(** ** AI logic *)

(** The [piece_values] dictionary of [evaluate_board]. *)
Definition piece_values (t : PieceType) : Z :=
  match t with
  | PAWN => 1 | KNIGHT => 3 | BISHOP => 3
  | ROOK => 5 | QUEEN => 9 | KING => 0
  end.

(** The value of [best_score]: [float('inf')] or an [int]. *)
Inductive Score : Type := Inf | Fin (z : Z).

(** [score < best_score]. *)
Definition score_lt (score : Z) (best : Score) : bool :=
  match best with Inf => true | Fin b => score <? b end.

(** [score == best_score]. *)
Definition score_eq (score : Z) (best : Score) : bool :=
  match best with Inf => false | Fin b => score =? b end.

Section AI.
Context {Board : Type} `{RulesEngine Board}.

(** One iteration of the [for square in chess.SQUARES] loop. *)
Definition evaluate_step (board : Board) (score : Z) (sq : Square) : Z :=
  match piece_at board sq with
  | Some piece =>
      let value := piece_values (piece_type piece) in
      match color piece with
      | WHITE => score + value
      | BLACK => score - value
      end
  | None => score
  end.

(** [evaluate_board(board)]: the loop run from [score = 0]. *)
Definition evaluate_board (board : Board) : Z :=
  fold_left (evaluate_step board) SQUARES 0.

(** The variables the scoring loop of [make_ai_move] updates: the
    board (pushed and popped in place), [best_moves] and [best_score]. *)
Record Search : Type := mkSearch {
  s_board : Board;
  best_moves : list Move;
  best_score : Score
}.

(** The body of [for move in legal_moves]. *)
Definition search_step (st : Search) (move : Move) : Search :=
  let b1 := push (s_board st) move in
  let score := evaluate_board b1 in
  let b2 := pop b1 in
  if score_lt score (best_score st) then mkSearch b2 [move] (Fin score)
  else if score_eq score (best_score st)
    then mkSearch b2 (best_moves st ++ [move]) (best_score st)
    else mkSearch b2 (best_moves st) (best_score st).

Definition search_loop (moves : list Move) (st : Search) : Search :=
  fold_left search_step moves st.

(** [random.choice(seq)] is [seq[i]] for an index [i] drawn from
    [range(len(seq))]; the draw is the argument [r], reduced into that
    range.  It is called on non-empty lists only. *)
Definition random_choice (r : nat) (m0 : Move) (rest : list Move) : Move :=
  nth (r mod (List.length (m0 :: rest)))%nat (m0 :: rest) m0.

(** [make_ai_move(board)]: the returned flag and the board afterwards. *)
Definition make_ai_move (r : nat) (board : Board) : bool * Board :=
  let legal := legal_moves board in
  match legal with
  | [] => (false, board)
  | _ :: _ =>
      let st := search_loop legal (mkSearch board [] Inf) in
      match best_moves st with
      | m0 :: rest =>
          let chosen_move := random_choice r m0 rest in
          (true, push (s_board st) chosen_move)
      | [] => (false, s_board st)
      end
  end.

(** The score the loop of [make_ai_move] records for a move. *)
Definition score_of (b : Board) (m : Move) : Z := evaluate_board (push b m).

(** What the loop variables hold once the moves [seen] are processed,
    the loop having started on the board [b]. *)
Definition search_inv (b : Board) (seen : list Move) (st : Search) : Prop :=
  s_board st = b
  /\ match best_score st with
     | Inf => seen = [] /\ best_moves st = []
     | Fin v =>
         best_moves st = filter (fun m => score_of b m =? v) seen
         /\ best_moves st <> []
         /\ forall m, In m seen -> v <= score_of b m
     end.

(** The sum the specification describes: over the squares that hold a
    piece, the piece's value, counted positive for White and negative
    for Black. *)
Definition sign (c : Color) : Z :=
  match c with WHITE => 1 | BLACK => -1 end.

Definition occupied (board : Board) (sq : Square) : bool :=
  match piece_at board sq with Some _ => true | None => false end.

Definition signed_value (board : Board) (sq : Square) : Z :=
  match piece_at board sq with
  | Some piece => piece_values (piece_type piece) * sign (color piece)
  | None => 0
  end.

Definition material_balance (board : Board) : Z :=
  fold_right Z.add 0 (map (signed_value board) (filter (occupied board) SQUARES)).
End AI.

(** ** The Tkinter application *)

Definition SQUARE_SIZE : Z := 80.

(** A [<Button-1>] event: the pointer's canvas coordinates. *)
Record Event : Type := mkEvent { ev_x : Z; ev_y : Z }.

(** [get_square_from_mouse]: [//] is Python's floor division. *)
Definition get_square_from_mouse (event : Event) : Square :=
  let col := ev_x event / SQUARE_SIZE in
  let row := ev_y event / SQUARE_SIZE in
  square col (7 - row).

(** The truth value Python gives an [int] in [if n:]. *)
Definition int_truth (n : Z) : bool := negb (n =? 0).

Section Controller.
Context {Board : Type} `{RulesEngine Board}.

(** The state of a [ChessApp], with what its callbacks do to the
    outside: [after_queue] counts the [execute_ai_move] callbacks
    registered with [root.after] and not yet run, [redraws] counts the
    calls of [redraw_board], [messages] lists the end-of-game messages
    printed and shown in a message box. *)
Record App : Type := mkApp {
  board : Board;
  selected_square : option Square;
  game_over : bool;
  after_queue : nat;
  redraws : nat;
  messages : list string
}.

(** [ChessApp.__init__]: a fresh board, nothing selected, and the
    first [redraw_board()]. *)
Definition init_app : App := mkApp start_board None false 0 1 [].

Definition set_board (b : Board) (s : App) : App :=
  mkApp b (selected_square s) (game_over s) (after_queue s) (redraws s) (messages s).

Definition set_selected (q : option Square) (s : App) : App :=
  mkApp (board s) q (game_over s) (after_queue s) (redraws s) (messages s).

Definition set_after_queue (n : nat) (s : App) : App :=
  mkApp (board s) (selected_square s) (game_over s) n (redraws s) (messages s).

(** [redraw_board]: the canvas is repainted from [board] and
    [selected_square]; neither is changed. *)
Definition redraw_board (s : App) : App :=
  mkApp (board s) (selected_square s) (game_over s) (after_queue s)
        (S (redraws s)) (messages s).

(** The message [check_game_over] builds when the game has ended. *)
Definition game_over_message (b : Board) : string :=
  let result := result b in
  if is_checkmate b then
    let winner := (if Color_eqb (turn b) BLACK then "White" else "Black")%string in
    ("Checkmate! " ++ winner ++ " wins.")%string
  else if is_stalemate b then "Stalemate! It's a draw."%string
  else ("Game Over! Draw by " ++ result ++ ".")%string.

(** [check_game_over]: the returned flag and the state afterwards. *)
Definition check_game_over (s : App) : bool * App :=
  if is_game_over (board s) then
    (true, mkApp (board s) (selected_square s) true (after_queue s) (redraws s)
                 (messages s ++ [game_over_message (board s)]))
  else (false, s).

(** [trigger_ai_move]: [root.after(250, self.execute_ai_move)]. *)
Definition trigger_ai_move (s : App) : App :=
  set_after_queue (S (after_queue s)) s.

(** [execute_ai_move]; [r] is the draw [random.choice] makes. *)
Definition execute_ai_move (r : nat) (s : App) : App :=
  if negb (game_over s) then
    let s1 := set_board (snd (make_ai_move r (board s))) s in
    let s2 := redraw_board s1 in
    snd (check_game_over s2)
  else s.

(** The [promotion] that [on_square_click] computes for the move from
    [sel] to [sq]. *)
Definition candidate_promotion (b : Board) (sel sq : Square) : option PieceType :=
  match piece_at b sel with
  | Some piece =>
      if PieceType_eqb (piece_type piece) PAWN
         && ((square_rank sel =? 6) && (square_rank sq =? 7))
      then Some QUEEN else None
  | None => None
  end.

(** [chess.Move(self.selected_square, square, promotion=promotion)]. *)
Definition candidate_move (b : Board) (sel sq : Square) : Move :=
  mkMove sel sq (candidate_promotion b sel sq).

(** [piece and piece.color == self.board.turn]. *)
Definition own_piece_at (b : Board) (sq : Square) : bool :=
  match piece_at b sq with
  | Some piece => Color_eqb (color piece) (turn b)
  | None => false
  end.

(** The [else] branch of [if self.selected_square:]: try to select. *)
Definition try_select (sq : Square) (s : App) : App :=
  if own_piece_at (board s) sq then redraw_board (set_selected (Some sq) s)
  else s.

(** The [then] branch of [if self.selected_square:]: try to move the
    piece on [sel]. *)
Definition try_move (sel sq : Square) (s : App) : App :=
  let move := candidate_move (board s) sel sq in
  if is_legal (board s) move then
    let s1 := set_board (push (board s) move) s in
    let s2 := set_selected None s1 in
    let s3 := redraw_board s2 in
    let (over, s4) := check_game_over s3 in
    if negb over then trigger_ai_move s4 else s4
  else if sq =? sel then
    redraw_board (set_selected None s)
  else if own_piece_at (board s) sq then
    redraw_board (set_selected (Some sq) s)
  else
    redraw_board (set_selected None s).

(** [on_square_click].  [if self.selected_square:] tests the truth
    value of [None] or of an [int]. *)
Definition on_square_click (event : Event) (s : App) : App :=
  if game_over s then s
  else if negb (Color_eqb (turn (board s)) WHITE) then s
  else
    let sq := get_square_from_mouse event in
    match selected_square s with
    | Some sel => if int_truth sel then try_move sel sq s else try_select sq s
    | None => try_select sq s
    end.

(** The events of the Tk main loop: a click on the canvas, or a
    registered [execute_ai_move] callback coming due. *)
Inductive step : App -> App -> Prop :=
| step_click (event : Event) (s : App) :
    step s (on_square_click event s)
| step_after (r : nat) (s : App) (n : nat) :
    after_queue s = S n ->
    step s (execute_ai_move r (set_after_queue n s)).

Inductive steps (s : App) : App -> Prop :=
| steps_refl : steps s s
| steps_next (s1 s2 : App) : steps s s1 -> step s1 s2 -> steps s s2.

Definition reachable (s : App) : Prop := steps init_app s.

(** The final rank of a colour's pawns, and the rank from which a pawn
    of that colour steps onto it. *)
Definition final_rank (c : Color) : Z :=
  match c with WHITE => 7 | BLACK => 0 end.

Definition rank_before_final (c : Color) : Z :=
  match c with WHITE => 6 | BLACK => 1 end.

(** "The moving piece is a pawn reaching the final rank for its
    colour", by the words: the piece on [sel] is a pawn, and the clicked
    square [sq] lies on the final rank of that pawn's colour. *)
Definition pawn_reaches_final_rank (b : Board) (sel sq : Square) : bool :=
  match piece_at b sel with
  | Some piece =>
      PieceType_eqb (piece_type piece) PAWN
      && (square_rank sq =? final_rank (color piece))
  | None => false
  end.

(** The invariant on the selection: a selected square holds a White
    piece. *)
Definition selection_owned (s : App) : Prop :=
  forall q, selected_square s = Some q ->
    exists t, piece_at (board s) q = Some (mkPiece t WHITE).

(** The invariant of the main loop: a selected square holds a White
    piece; at most one AI callback is registered, and while it is,
    nothing is selected and Black is to move. *)
Definition controller_inv (s : App) : Prop :=
  selection_owned s
  /\ (after_queue s <> 0%nat ->
      after_queue s = 1%nat /\ selected_square s = None
      /\ turn (board s) = BLACK).

(** The flag follows the board: a board on which the game has ended
    comes with [game_over] set. *)
Definition terminal_flagged (s : App) : Prop :=
  is_game_over (board s) = true -> game_over s = true.
End Controller.

(** ** The canvas

    [redraw_board] clears the canvas and draws, row by row and column by
    column, the square, the highlight of the selected square and the
    piece.  The canvas is the list of the items drawn, in drawing
    order. *)

Definition ROWS : Z := 8.
Definition COLS : Z := 8.
Definition WIDTH : Z := COLS * SQUARE_SIZE.
Definition HEIGHT : Z := ROWS * SQUARE_SIZE.

Definition LIGHT_SQUARE : string := "#EEEED2".
Definition DARK_SQUARE : string := "#769656".
Definition HIGHLIGHT_COLOR : string := "#FFFF33".

(** [range(n)]. *)
Definition range (n : Z) : list Z := map Z.of_nat (seq 0 (Z.to_nat n)).

(** What [redraw_board] puts on the canvas: [Cell] is
    [create_rectangle(x1, y1, x2, y2, fill=color, outline="")],
    [Highlight] is [create_rectangle(x1, y1, x2, y2, outline=..., width=...)],
    [Glyph] is [create_text(x, y, text=piece.unicode_symbol(), ...)],
    kept as the piece whose symbol is drawn. *)
Inductive Item : Type :=
| Cell (x1 y1 x2 y2 : Z) (fill : string)
| Highlight (x1 y1 x2 y2 : Z) (outline : string) (width : Z)
| Glyph (x y : Z) (piece : Piece).

Definition is_highlight (i : Item) : bool :=
  match i with Highlight _ _ _ _ _ _ => true | _ => false end.

Definition is_cell (i : Item) : bool :=
  match i with Cell _ _ _ _ _ => true | _ => false end.

(** [chess.square_file(square)] is [square & 7]. *)
Definition square_file (sq : Square) : Z := Z.land sq 7.

(** [chess.square_mirror(square)] is [square ^ 0x38]: the same file on
    the rank counted from the other side. *)
Definition square_mirror (sq : Square) : Square := Z.lxor sq 56.

(** The piece of the other colour. *)
Definition swap_color (p : Piece) : Piece :=
  mkPiece (piece_type p) (opposite (color p)).

Section Canvas.
Context {Board : Type} `{RulesEngine Board}.

(** [square == self.selected_square]. *)
Definition is_selected (sel : option Square) (sq : Square) : bool :=
  match sel with Some q => sq =? q | None => false end.

(** The body of the two loops of [redraw_board] for row [r], column [c]. *)
Definition draw_cell (b : Board) (sel : option Square) (r c : Z) : list Item :=
  let x1 := c * SQUARE_SIZE in
  let y1 := r * SQUARE_SIZE in
  let x2 := x1 + SQUARE_SIZE in
  let y2 := y1 + SQUARE_SIZE in
  let color := if (r + c) mod 2 =? 0 then LIGHT_SQUARE else DARK_SQUARE in
  let sq := square c (7 - r) in
  [Cell x1 y1 x2 y2 color]
  ++ (if is_selected sel sq
      then [Highlight (x1 + 2) (y1 + 2) (x2 - 2) (y2 - 2) HIGHLIGHT_COLOR 4]
      else [])
  ++ (match piece_at b sq with
      | Some piece => [Glyph (x1 + SQUARE_SIZE / 2) (y1 + SQUARE_SIZE / 2) piece]
      | None => []
      end).

(** The canvas after [redraw_board]. *)
Definition draw_board (b : Board) (sel : option Square) : list Item :=
  flat_map (fun r => flat_map (fun c => draw_cell b sel r c) (range COLS))
           (range ROWS).

(** The application with its canvas. *)
Record Gui : Type := mkGui { gui_app : @App Board; canvas : list Item }.

(** A change of the application state that draws nothing. *)
Definition gui_lift (f : @App Board -> @App Board) (g : Gui) : Gui :=
  mkGui (f (gui_app g)) (canvas g).

(** [redraw_board], with the canvas. *)
Definition gui_redraw_board (g : Gui) : Gui :=
  mkGui (redraw_board (gui_app g))
        (draw_board (board (gui_app g)) (selected_square (gui_app g))).

(** [ChessApp.__init__], with the canvas its last line draws. *)
Definition init_gui : Gui := mkGui init_app (draw_board start_board None).

(** [check_game_over], with the canvas (which it leaves alone). *)
Definition gui_check_game_over (g : Gui) : bool * Gui :=
  let (over, a) := check_game_over (gui_app g) in (over, mkGui a (canvas g)).

(** The [else] branch of [if self.selected_square:], with the canvas. *)
Definition gui_try_select (sq : Square) (g : Gui) : Gui :=
  if own_piece_at (board (gui_app g)) sq
  then gui_redraw_board (gui_lift (set_selected (Some sq)) g)
  else g.

(** The [then] branch of [if self.selected_square:], with the canvas. *)
Definition gui_try_move (sel sq : Square) (g : Gui) : Gui :=
  let move := candidate_move (board (gui_app g)) sel sq in
  if is_legal (board (gui_app g)) move then
    let g1 := gui_lift (set_board (push (board (gui_app g)) move)) g in
    let g2 := gui_lift (set_selected None) g1 in
    let g3 := gui_redraw_board g2 in
    let (over, g4) := gui_check_game_over g3 in
    if negb over then gui_lift trigger_ai_move g4 else g4
  else if sq =? sel then
    gui_redraw_board (gui_lift (set_selected None) g)
  else if own_piece_at (board (gui_app g)) sq then
    gui_redraw_board (gui_lift (set_selected (Some sq)) g)
  else
    gui_redraw_board (gui_lift (set_selected None) g).

(** [on_square_click], with the canvas. *)
Definition gui_on_square_click (event : Event) (g : Gui) : Gui :=
  if game_over (gui_app g) then g
  else if negb (Color_eqb (turn (board (gui_app g))) WHITE) then g
  else
    let sq := get_square_from_mouse event in
    match selected_square (gui_app g) with
    | Some sel =>
        if int_truth sel then gui_try_move sel sq g else gui_try_select sq g
    | None => gui_try_select sq g
    end.

(** [execute_ai_move], with the canvas. *)
Definition gui_execute_ai_move (r : nat) (g : Gui) : Gui :=
  if negb (game_over (gui_app g)) then
    let g1 := gui_lift (set_board (snd (make_ai_move r (board (gui_app g))))) g in
    let g2 := gui_redraw_board g1 in
    snd (gui_check_game_over g2)
  else g.

(** The events of the main loop, with the canvas. *)
Inductive gui_step : Gui -> Gui -> Prop :=
| gui_step_click (event : Event) (g : Gui) :
    gui_step g (gui_on_square_click event g)
| gui_step_after (r : nat) (g : Gui) (n : nat) :
    after_queue (gui_app g) = S n ->
    gui_step g (gui_execute_ai_move r (gui_lift (set_after_queue n) g)).

Inductive gui_steps (g : Gui) : Gui -> Prop :=
| gui_steps_refl : gui_steps g g
| gui_steps_next (g1 g2 : Gui) :
    gui_steps g g1 -> gui_step g1 g2 -> gui_steps g g2.

(** The canvas shows the board and the selection as they are. *)
Definition canvas_current (g : Gui) : Prop :=
  canvas g = draw_board (board (gui_app g)) (selected_square (gui_app g)).

(** The boards of a game played by the rules: the starting board, then
    a legal move pushed by the human when White is to move, or one of
    the engine's legal moves pushed by the AI when Black is to move. *)
Inductive played : Board -> Prop :=
| played_start : played start_board
| played_human (b : Board) (m : Move) :
    played b -> turn b = WHITE -> is_legal b m = true -> played (push b m)
| played_ai (b : Board) (m : Move) :
    played b -> turn b = BLACK -> In m (legal_moves b) -> played (push b m).

(** The end-of-game message has been shown once if the game is over and
    not at all if it is not. *)
Definition reported_once (s : @App Board) : Prop :=
  if game_over s then List.length (messages s) = 1%nat else messages s = [].

(** A registered AI callback finds a game in progress, Black to move and
    nothing selected; there is at most one. *)
Definition callback_ready (s : @App Board) : Prop :=
  (after_queue s <= 1)%nat
  /\ (after_queue s = 1%nat ->
      turn (board s) = BLACK /\ game_over s = false
      /\ is_game_over (board s) = false /\ selected_square s = None).
End Canvas.

(** ** Promotion, by the rules of the game *)

Section Promotion.
Context {Board : Type} `{RulesEngine Board}.

(** "The moving piece is a pawn reaching the final rank for its
    colour", by the rules of chess: the piece on [sel] is a pawn one rank
    before the final rank of its colour, and the clicked square [sq] lies
    on that final rank, on the pawn's file or a neighbouring one. *)
Definition pawn_steps_onto_final_rank (b : Board) (sel sq : Square) : bool :=
  match piece_at b sel with
  | Some piece =>
      PieceType_eqb (piece_type piece) PAWN
      && (square_rank sel =? rank_before_final (color piece))
      && (square_rank sq =? final_rank (color piece))
      && (Z.abs (square_file sq - square_file sel) <=? 1)
  | None => false
  end.
End Promotion.

(** ** A concrete rules engine

    The instances below need boards to run the controller on.  [MiniChess]
    is the rules engine for chess without castling and en passant: piece
    placement on the 64 squares, side to move, and the stack of earlier
    states that [push] grows and [pop] shrinks.  Its end of game is
    checkmate, stalemate, or bare kings. *)
Module MiniChess.

Definition Placement : Type := list (option Piece).

Record Position : Type := mkPosition {
  squares : Placement;
  side : Color;
  stack : list (Placement * Color)
}.

Definition at_square (p : Placement) (sq : Square) : option Piece :=
  if (0 <=? sq) && (sq <? 64) then nth (Z.to_nat sq) p None else None.

Definition file_of (sq : Square) : Z := sq mod 8.
Definition rank_of (sq : Square) : Z := sq / 8.

Definition inside (f r : Z) : bool :=
  (0 <=? f) && (f <? 8) && (0 <=? r) && (r <? 8).

(** A square a piece of colour [c] may land on: empty or held by the
    other side. *)
Definition landing (p : Placement) (c : Color) (f r : Z) : list Square :=
  if inside f r then
    match at_square p (square f r) with
    | Some q => if Color_eqb (color q) c then [] else [square f r]
    | None => [square f r]
    end
  else [].

Definition jumps (p : Placement) (c : Color) (sq : Square)
    (offsets : list (Z * Z)) : list Square :=
  flat_map (fun d => landing p c (file_of sq + fst d) (rank_of sq + snd d)) offsets.

Fixpoint ray (fuel : nat) (p : Placement) (c : Color) (f r df dr : Z) : list Square :=
  match fuel with
  | O => []
  | S n =>
      let f' := f + df in
      let r' := r + dr in
      if inside f' r' then
        match at_square p (square f' r') with
        | None => square f' r' :: ray n p c f' r' df dr
        | Some q => if Color_eqb (color q) c then [] else [square f' r']
        end
      else []
  end.

Definition slides (p : Placement) (c : Color) (sq : Square)
    (dirs : list (Z * Z)) : list Square :=
  flat_map (fun d => ray 7 p c (file_of sq) (rank_of sq) (fst d) (snd d)) dirs.

Definition knight_offsets : list (Z * Z) :=
  [(1, 2); (2, 1); (2, -1); (1, -2); (-1, -2); (-2, -1); (-2, 1); (-1, 2)].
Definition king_offsets : list (Z * Z) :=
  [(1, 0); (1, 1); (0, 1); (-1, 1); (-1, 0); (-1, -1); (0, -1); (1, -1)].
Definition rook_dirs : list (Z * Z) := [(1, 0); (0, 1); (-1, 0); (0, -1)].
Definition bishop_dirs : list (Z * Z) := [(1, 1); (-1, 1); (-1, -1); (1, -1)].

Definition forward (c : Color) : Z := match c with WHITE => 1 | BLACK => -1 end.
Definition pawn_rank (c : Color) : Z := match c with WHITE => 1 | BLACK => 6 end.
Definition last_rank (c : Color) : Z := match c with WHITE => 7 | BLACK => 0 end.

Definition pawn_captures (p : Placement) (c : Color) (sq : Square) : list Square :=
  flat_map (fun df =>
    let f := file_of sq + df in
    let r := rank_of sq + forward c in
    if inside f r then
      match at_square p (square f r) with
      | Some q => if Color_eqb (color q) c then [] else [square f r]
      | None => []
      end
    else []) [-1; 1].

Definition pawn_pushes (p : Placement) (c : Color) (sq : Square) : list Square :=
  let f := file_of sq in
  let r1 := rank_of sq + forward c in
  let r2 := r1 + forward c in
  if inside f r1 then
    match at_square p (square f r1) with
    | Some _ => []
    | None =>
        square f r1 ::
        (if rank_of sq =? pawn_rank c then
           match at_square p (square f r2) with
           | Some _ => []
           | None => [square f r2]
           end
         else [])
    end
  else [].

(** The squares the piece [pc] standing on [sq] may move to, the safety
    of its own king aside. *)
Definition targets (p : Placement) (sq : Square) (pc : Piece) : list Square :=
  let c := color pc in
  match piece_type pc with
  | PAWN => pawn_pushes p c sq ++ pawn_captures p c sq
  | KNIGHT => jumps p c sq knight_offsets
  | BISHOP => slides p c sq bishop_dirs
  | ROOK => slides p c sq rook_dirs
  | QUEEN => slides p c sq (rook_dirs ++ bishop_dirs)
  | KING => jumps p c sq king_offsets
  end.

Definition king_square (p : Placement) (c : Color) : option Square :=
  find (fun sq =>
    match at_square p sq with
    | Some q => PieceType_eqb (piece_type q) KING && Color_eqb (color q) c
    | None => false
    end) SQUARES.

(** Some piece of colour [c] may capture on [k]. *)
Definition attacked (p : Placement) (c : Color) (k : Square) : bool :=
  existsb (fun sq =>
    match at_square p sq with
    | Some q => Color_eqb (color q) c && existsb (Z.eqb k) (targets p sq q)
    | None => false
    end) SQUARES.

Definition in_check (p : Placement) (c : Color) : bool :=
  match king_square p c with
  | Some k => attacked p (opposite c) k
  | None => false
  end.

Definition put (p : Placement) (sq : Square) (x : option Piece) : Placement :=
  firstn (Z.to_nat sq) p ++ x :: skipn (S (Z.to_nat sq)) p.

(** The placement after the move [m]. *)
Definition relocate (p : Placement) (m : Move) : Placement :=
  match at_square p (from_square m) with
  | Some pc =>
      let arrived :=
        match promotion m with
        | Some t => mkPiece t (color pc)
        | None => pc
        end in
      put (put p (from_square m) None) (to_square m) (Some arrived)
  | None => p
  end.

Definition moves_from (p : Placement) (c : Color) (sq : Square) : list Move :=
  match at_square p sq with
  | Some pc =>
      if Color_eqb (color pc) c then
        flat_map (fun t =>
          if PieceType_eqb (piece_type pc) PAWN && (rank_of t =? last_rank c)
          then map (fun k => mkMove sq t (Some k)) [QUEEN; ROOK; BISHOP; KNIGHT]
          else [mkMove sq t None]) (targets p sq pc)
      else []
  | None => []
  end.

Definition legal (p : Placement) (c : Color) : list Move :=
  filter (fun m => negb (in_check (relocate p m) c))
         (flat_map (moves_from p c) SQUARES).

Definition bare_kings (p : Placement) : bool :=
  forallb (fun x =>
    match x with
    | Some q => PieceType_eqb (piece_type q) KING
    | None => true
    end) p.

Definition no_moves (b : Position) : bool :=
  match legal (squares b) (side b) with [] => true | _ :: _ => false end.

Definition back_rank (c : Color) : Placement :=
  map (fun t => Some (mkPiece t c))
      [ROOK; KNIGHT; BISHOP; QUEEN; KING; BISHOP; KNIGHT; ROOK].

Definition initial : Position :=
  mkPosition
    (back_rank WHITE ++ repeat (Some (mkPiece PAWN WHITE)) 8
     ++ repeat None 32
     ++ repeat (Some (mkPiece PAWN BLACK)) 8 ++ back_rank BLACK)
    WHITE [].

#[global] Instance engine : RulesEngine Position := {
  start_board := initial;
  piece_at b sq := at_square (squares b) sq;
  turn := side;
  legal_moves b := legal (squares b) (side b);
  is_legal b m := existsb (Move_eqb m) (legal (squares b) (side b));
  push b m :=
    mkPosition (relocate (squares b) m) (opposite (side b))
               ((squares b, side b) :: stack b);
  pop b :=
    match stack b with
    | (p, c) :: rest => mkPosition p c rest
    | [] => b
    end;
  is_game_over b := no_moves b || bare_kings (squares b);
  is_checkmate b := no_moves b && in_check (squares b) (side b);
  is_stalemate b := no_moves b && negb (in_check (squares b) (side b));
  result b :=
    if no_moves b && in_check (squares b) (side b)
    then (match side b with WHITE => "0-1" | BLACK => "1-0" end)%string
    else if no_moves b || bare_kings (squares b) then "1/2-1/2"%string
    else "*"%string
}.

(** The canvas event of a click in the middle of the square on file
    [f] and rank [r]. *)
Definition click_at (f r : Z) : Event :=
  mkEvent (f * SQUARE_SIZE + 40) ((7 - r) * SQUARE_SIZE + 40).

(** A click on the square on file [f] and rank [r]. *)
Definition click (f r : Z) (s : App) : App :=
  on_square_click (click_at f r) s.

(** The registered AI callback runs, [random.choice] drawing [r]. *)
Definition ai_reply (r : nat) (s : App) : App :=
  match after_queue s with
  | S n => execute_ai_move r (set_after_queue n s)
  | O => s
  end.

(** From the start: a click on a1. *)
Definition a1_selected : App := click 0 0 init_app.

(** From the start: a2 then a4 are clicked (1. a4), the AI answers
    1... e5 (draw 9 among its twenty equal moves), a1 is clicked. *)
Definition after_a4_e5 : App := ai_reply 9 (click 0 3 (click 0 1 init_app)).
Definition a1_selected_after_a4_e5 : App := click 0 0 after_a4_e5.

(** From the start: 1. e4 is clicked; the AI has not answered yet. *)
Definition after_e4 : App := click 4 3 (click 4 1 init_app).

(** From the start: 1. f3 e5 2. g4 Qh4, the AI drawing its ninth and
    then its twentieth equal move: Black has mated. *)
Definition fools_mate : App :=
  ai_reply 20 (click 6 3 (click 6 1 (ai_reply 9 (click 5 2 (click 5 1 init_app))))).

(** The board of [after_e4]: Black to move after 1. e4. *)
Definition board_after_e4 : Position := board after_e4.

(** White: king e1, pawn e7.  Black: king a8.  White to move, and the
    pawn is clicked. *)
Definition pawn_on_e7 : Position :=
  mkPosition
    (repeat None 4 ++ [Some (mkPiece KING WHITE)] ++ repeat None 47
     ++ [Some (mkPiece PAWN WHITE)] ++ repeat None 3
     ++ [Some (mkPiece KING BLACK)] ++ repeat None 7)
    WHITE [].
Definition pawn_on_e7_selected : App :=
  click 4 6 (mkApp pawn_on_e7 None false 0 1 []).

(** From the start: 1. Nf3 Nf6 2. Ng1 Ng8, pushed on the board. *)
Definition knights_back : Position :=
  push (push (push (push initial (mkMove 6 21 None)) (mkMove 62 45 None))
             (mkMove 21 6 None)) (mkMove 45 62 None).

(** From the start: 1. f3 e5 2. g4, as the AI callback finds it. *)
Definition before_mate : App :=
  set_after_queue 0
    (click 6 3 (click 6 1 (ai_reply 9 (click 5 2 (click 5 1 init_app))))).

(** [pawn_on_e7] seen from the other side: Black king e8, Black pawn e2,
    White king a1. *)
Definition pawn_on_e2 : Position :=
  mkPosition
    ([Some (mkPiece KING WHITE)] ++ repeat None 11
     ++ [Some (mkPiece PAWN BLACK)] ++ repeat None 47
     ++ [Some (mkPiece KING BLACK)] ++ repeat None 3)
    BLACK [].

(** From the start: a click on e2. *)
Definition e2_selected : App := click 4 1 init_app.

(** The same boards under an engine whose membership test accepts every
    move: a click with a square selected then pushes whatever move the
    controller has built, and the board shows which one it was. *)
Definition accepting : RulesEngine Position := {|
  start_board := initial;
  piece_at b sq := at_square (squares b) sq;
  turn := side;
  legal_moves b := legal (squares b) (side b);
  is_legal _ _ := true;
  push := @push Position engine;
  pop := @pop Position engine;
  is_game_over := @is_game_over Position engine;
  is_checkmate := @is_checkmate Position engine;
  is_stalemate := @is_stalemate Position engine;
  result := @result Position engine
|}.

End MiniChess.

(** * Properties *)

(** ** Equality tests *)

Lemma Color_eqb_eq (a b : Color) : Color_eqb a b = true <-> a = b.
Proof. destruct a, b; simpl; split; congruence. Qed.

Lemma PieceType_eqb_eq (a b : PieceType) : PieceType_eqb a b = true <-> a = b.
Proof. destruct a, b; simpl; split; congruence. Qed.

Lemma Move_eqb_eq (a b : Move) : Move_eqb a b = true <-> a = b.
Proof.
  destruct a as [f1 t1 p1], b as [f2 t2 p2]; unfold Move_eqb; simpl.
  rewrite !andb_true_iff, !Z.eqb_eq. split.
  - intros [[-> ->] Hp]. f_equal.
    destruct p1 as [x|], p2 as [y|]; simpl in Hp; try discriminate; auto.
    apply PieceType_eqb_eq in Hp. now subst.
  - intros E. injection E as -> -> ->. repeat split.
    destruct p2 as [y|]; simpl; auto. now apply PieceType_eqb_eq.
Qed.


(** ** Static evaluation *)

Section EvaluationFacts.
Context {Board : Type} `{RulesEngine Board}.

Lemma evaluate_step_signed (b : Board) (acc : Z) (sq : Square) :
  evaluate_step b acc sq = acc + signed_value b sq.
Proof.
  unfold evaluate_step, signed_value.
  destruct (piece_at b sq) as [[t c]|]; simpl; [destruct c; simpl; lia | lia].
Qed.

Lemma fold_evaluate_step (b : Board) (l : list Square) (acc : Z) :
  fold_left (evaluate_step b) l acc
  = acc + fold_right Z.add 0 (map (signed_value b) (filter (occupied b) l)).
Proof.
  revert acc. induction l as [|sq l IH]; intros acc; simpl; [lia|].
  rewrite IH, evaluate_step_signed.
  destruct (occupied b sq) eqn:Eocc; simpl; [lia|].
  unfold occupied in Eocc. unfold signed_value at 1.
  destruct (piece_at b sq); [discriminate | lia].
Qed.

Lemma fold_evaluate_step_ext {Board' : Type} `{RulesEngine Board'}
    (b : Board) (b' : Board') (l : list Square) (acc : Z) :
  (forall sq, In sq l -> piece_at b' sq = piece_at b sq) ->
  fold_left (evaluate_step b') l acc = fold_left (evaluate_step b) l acc.
Proof.
  revert acc. induction l as [|sq l IH]; intros acc Hsame; simpl; [reflexivity|].
  assert (Hstep : evaluate_step b' acc sq = evaluate_step b acc sq).
  { unfold evaluate_step. rewrite (Hsame sq); [reflexivity | now left]. }
  rewrite Hstep. apply IH. intros q Hq. apply Hsame. now right.
Qed.

Lemma fold_evaluate_step_sum (b : Board) (l : list Square) (acc : Z) :
  fold_left (evaluate_step b) l acc
  = acc + fold_right Z.add 0 (map (signed_value b) l).
Proof.
  revert acc. induction l as [|sq l IH]; intros acc; simpl; [lia|].
  rewrite IH, evaluate_step_signed. lia.
Qed.

Lemma evaluate_board_signed_sum (b : Board) :
  evaluate_board b = fold_right Z.add 0 (map (signed_value b) SQUARES).
Proof. unfold evaluate_board. rewrite fold_evaluate_step_sum. lia. Qed.
End EvaluationFacts.

(** C3.  [evaluate_board] returns the material sum: over the squares that
    hold a piece, the piece's value (pawn 1, knight 3, bishop 3, rook 5,
    queen 9, king 0) times +1 for a White piece and -1 for a Black one.
    It reads the board through [piece_at] only, so two boards with the
    same pieces on the 64 squares get the same score, whatever else
    differs between them; it returns a number and no board. *)
Theorem evaluate_board_material
    (Board : Type) (E : RulesEngine Board) (b : Board) :
  evaluate_board b = material_balance b
  /\ (piece_values PAWN = 1 /\ piece_values KNIGHT = 3 /\ piece_values BISHOP = 3
      /\ piece_values ROOK = 5 /\ piece_values QUEEN = 9 /\ piece_values KING = 0)
  /\ (forall (Board' : Type) (E' : RulesEngine Board') (b' : Board'),
        (forall sq, In sq SQUARES -> piece_at b' sq = piece_at b sq) ->
        evaluate_board b' = evaluate_board b).
Proof.
  split; [|split].
  - unfold evaluate_board, material_balance. rewrite fold_evaluate_step. lia.
  - repeat split.
  - intros Board' E' b' Hsame. unfold evaluate_board.
    now apply fold_evaluate_step_ext.
Qed.

(** ** The one-ply search *)

(** The evaluation loop runs over 64 squares: proofs go through its
    lemmas, never through its unfolding. *)
#[global] Opaque evaluate_board.

Section SearchFacts.
Context {Board : Type} `{RulesEngine Board}.
Variable b : Board.


Lemma score_of_push (m : Move) : score_of b m = evaluate_board (push b m).
Proof. unfold score_of. reflexivity. Qed.

Lemma filter_above (v : Z) (l : list Move) (w : Z) :
  (forall m, In m l -> v <= score_of b m) -> w < v ->
  filter (fun m => score_of b m =? w) l = [].
Proof.
  intros Hlow Hlt. induction l as [|m l IH]; simpl; [reflexivity|].
  assert (v <= score_of b m) by (apply Hlow; now left).
  destruct (Z.eqb_spec (score_of b m) w); [lia|].
  apply IH. intros x Hx. apply Hlow. now right.
Qed.

Lemma search_step_inv (seen : list Move) (st : Search) (m : Move) :
  pop (push b m) = b ->
  search_inv b seen st -> search_inv b (seen ++ [m]) (search_step st m).
Proof.
  intros Hpop [Hb Hbest]. unfold search_step. rewrite Hb, Hpop.
  rewrite <- !(score_of_push m). unfold search_inv.
  destruct (best_score st) as [|v] eqn:Ebest; cbn [score_lt score_eq].
  - destruct Hbest as [-> _]. cbn [s_board best_score best_moves app filter].
    rewrite Z.eqb_refl. repeat split; [discriminate|].
    intros x [<-|[]]. lia.
  - destruct Hbest as [Hmoves [Hne Hlow]].
    destruct (Z.ltb_spec (score_of b m) v) as [Hlt|Hge].
    + cbn [s_board best_score best_moves]. rewrite filter_app.
      cbn [filter]. rewrite Z.eqb_refl, (filter_above v) by assumption.
      repeat split; [discriminate|].
      intros x Hx. apply in_app_or in Hx. destruct Hx as [Hx|[<-|[]]]; [|lia].
      specialize (Hlow x Hx). lia.
    + destruct (Z.eqb_spec (score_of b m) v) as [Heq|Hneq];
        cbn [s_board best_score best_moves]; rewrite filter_app;
        cbn [filter].
      * rewrite Heq, Z.eqb_refl, <- Hmoves.
        repeat split.
        -- intros Habs. now apply app_eq_nil in Habs.
        -- intros x Hx. apply in_app_or in Hx.
           destruct Hx as [Hx|[<-|[]]]; [now apply Hlow | lia].
      * destruct (Z.eqb_spec (score_of b m) v); [contradiction|].
        rewrite app_nil_r. repeat split; auto.
        intros x Hx. apply in_app_or in Hx.
        destruct Hx as [Hx|[<-|[]]]; [now apply Hlow | lia].
Qed.

Lemma search_loop_inv (moves seen : list Move) (st : Search) :
  (forall m, In m moves -> pop (push b m) = b) ->
  search_inv b seen st -> search_inv b (seen ++ moves) (search_loop moves st).
Proof.
  revert seen st. induction moves as [|m moves IH]; intros seen st Hpop Hinv.
  - simpl. now rewrite app_nil_r.
  - simpl. replace (seen ++ m :: moves) with ((seen ++ [m]) ++ moves)
      by (rewrite <- app_assoc; reflexivity).
    apply IH.
    + intros x Hx. apply Hpop. now right.
    + apply search_step_inv; [apply Hpop; now left | assumption].
Qed.

Lemma search_inv_start : search_inv b [] (mkSearch b [] Inf).
Proof. split; simpl; auto. Qed.

Lemma random_choice_In (r : nat) (m0 : Move) (rest : list Move) :
  In (random_choice r m0 rest) (m0 :: rest).
Proof.
  unfold random_choice. apply nth_In.
  apply Nat.mod_upper_bound. simpl. discriminate.
Qed.

(** The result of [make_ai_move] on a board with a legal move. *)
Lemma make_ai_move_chooses (r : nat) :
  (forall m, In m (legal_moves b) -> pop (push b m) = b) ->
  legal_moves b <> [] ->
  exists m v,
    make_ai_move r b = (true, push b m)
    /\ In m (legal_moves b)
    /\ score_of b m = v
    /\ forall m', In m' (legal_moves b) -> v <= score_of b m'.
Proof.
  intros Hpop Hne.
  pose proof (search_loop_inv (legal_moves b) [] _ Hpop search_inv_start) as Hinv.
  simpl in Hinv. destruct Hinv as [Hb Hbest].
  unfold make_ai_move.
  destruct (legal_moves b) as [|m1 ms] eqn:Elegal; [congruence|].
  remember (search_loop (m1 :: ms) (mkSearch b [] Inf)) as st.
  destruct (best_score st) as [|v]; [destruct Hbest; discriminate|].
  destruct Hbest as [Hmoves [Hnonempty Hlow]].
  destruct (best_moves st) as [|m0 rest]; [congruence|].
  pose proof (random_choice_In r m0 rest) as Hin.
  rewrite Hmoves in Hin. apply filter_In in Hin. destruct Hin as [Hin Hscore].
  apply Z.eqb_eq in Hscore.
  exists (random_choice r m0 rest), v. rewrite Hb. auto.
Qed.
End SearchFacts.

(** C1.  On a board with a legal move, whatever [random.choice] draws,
    [make_ai_move] pushes exactly one move [m]; [m] is one of the legal
    moves, and the evaluation of the board after [m] is the least among
    the boards after each legal move.  The engine restores the board on
    [pop] after [push]. *)
Theorem make_ai_move_minimal
    (Board : Type) (E : RulesEngine Board) (b : Board) (r : nat) :
  (forall m, In m (legal_moves b) -> pop (push b m) = b) ->
  legal_moves b <> [] ->
  exists m,
    make_ai_move r b = (true, push b m)
    /\ In m (legal_moves b)
    /\ forall m', In m' (legal_moves b) ->
         evaluate_board (push b m) <= evaluate_board (push b m').
Proof.
  intros Hpop Hne.
  destruct (make_ai_move_chooses b r Hpop Hne) as [m [v [Hrun [Hin [Hv Hlow]]]]].
  exists m. split; [exact Hrun|]. split; [exact Hin|].
  intros m' Hm'. specialize (Hlow m' Hm').
  rewrite <- !score_of_push. lia.
Qed.

(** C9.  Without a legal move [make_ai_move] returns [False] and the
    board it was given.  With legal moves, every iteration of the scoring
    loop leaves the board that [pop] gives back after its [push], which is
    the input board: the board is the input board before each next
    evaluation; and the board in the end is the input board with one
    legal move pushed.  The engine restores the board on [pop] after
    [push]. *)
Theorem make_ai_move_frame
    (Board : Type) (E : RulesEngine Board) (b : Board) (r : nat) :
  (forall m, In m (legal_moves b) -> pop (push b m) = b) ->
  (legal_moves b = [] -> make_ai_move r b = (false, b))
  /\ (forall st m, s_board (search_step st m) = pop (push (s_board st) m))
  /\ (forall done todo, legal_moves b = done ++ todo ->
        s_board (search_loop done (mkSearch b [] Inf)) = b)
  /\ (legal_moves b <> [] ->
        exists m, In m (legal_moves b) /\ make_ai_move r b = (true, push b m)).
Proof.
  intros Hpop. repeat split.
  - intros Hnone. unfold make_ai_move. now rewrite Hnone.
  - intros st m. unfold search_step.
    destruct (score_lt _ _); [reflexivity|]. destruct (score_eq _ _); reflexivity.
  - intros done todo Hsplit.
    assert (Hdone : forall m, In m done -> pop (push b m) = b).
    { intros m Hm. apply Hpop. rewrite Hsplit. apply in_or_app. now left. }
    destruct (search_loop_inv b done [] _ Hdone (search_inv_start b)) as [Hb _].
    exact Hb.
  - intros Hne.
    destruct (make_ai_move_chooses b r Hpop Hne) as [m [v [Hrun [Hin _]]]].
    exists m. auto.
Qed.

(** ** The click handler and the AI callback *)

(** A click inside the 640 by 640 canvas lands on one of the 64 squares,
    and a1 is the square under the bottom-left corner. *)
Lemma get_square_from_mouse_on_board (event : Event) :
  0 <= ev_x event < 640 -> 0 <= ev_y event < 640 ->
  0 <= get_square_from_mouse event < 64.
Proof.
  intros Hx Hy. unfold get_square_from_mouse, square, SQUARE_SIZE.
  assert (0 <= ev_x event / 80 < 8)
    by (split; [apply Z.div_pos | apply Z.div_lt_upper_bound]; lia).
  assert (0 <= ev_y event / 80 < 8)
    by (split; [apply Z.div_pos | apply Z.div_lt_upper_bound]; lia).
  lia.
Qed.

Lemma get_square_from_mouse_a1 (event : Event) :
  0 <= ev_x event < 80 -> 560 <= ev_y event < 640 ->
  get_square_from_mouse event = 0.
Proof.
  intros Hx Hy. unfold get_square_from_mouse, square, SQUARE_SIZE.
  rewrite (Z.div_small (ev_x event) 80) by lia.
  assert (ev_y event / 80 = 7); [|lia].
  symmetry. apply (Z.div_unique (ev_y event) 80 7 (ev_y event - 560)); lia.
Qed.

Section ControllerFacts.
Context {Board : Type} `{RulesEngine Board}.

Lemma own_piece_at_white (b : Board) (sq : Square) :
  own_piece_at b sq = true -> turn b = WHITE ->
  exists t, piece_at b sq = Some (mkPiece t WHITE).
Proof.
  unfold own_piece_at. intros Hown Hturn.
  destruct (piece_at b sq) as [[t c]|]; [|discriminate].
  simpl in Hown. apply Color_eqb_eq in Hown. exists t. congruence.
Qed.

Lemma check_game_over_frame (s : App) :
  let s' := snd (check_game_over s) in
  board s' = board s /\ selected_square s' = selected_square s
  /\ after_queue s' = after_queue s /\ redraws s' = redraws s
  /\ game_over s' = (game_over s || is_game_over (board s)).
Proof.
  unfold check_game_over. destruct (is_game_over (board s)); simpl.
  - repeat split. now rewrite orb_true_r.
  - repeat split. now rewrite orb_false_r.
Qed.

Lemma try_select_frame (sq : Square) (s : App) :
  board (try_select sq s) = board s
  /\ game_over (try_select sq s) = game_over s
  /\ after_queue (try_select sq s) = after_queue s
  /\ messages (try_select sq s) = messages s
  /\ selected_square (try_select sq s)
     = (if own_piece_at (board s) sq then Some sq else selected_square s).
Proof.
  unfold try_select. destruct (own_piece_at (board s) sq); simpl; repeat split.
Qed.

(** The click handler with a guard that fails. *)
Lemma on_square_click_guard (event : Event) (s : App) :
  game_over s = true \/ turn (board s) <> WHITE -> on_square_click event s = s.
Proof.
  unfold on_square_click. intros [Hover|Hturn].
  - now rewrite Hover.
  - destruct (game_over s); [reflexivity|].
    destruct (turn (board s)); [congruence | reflexivity].
Qed.

(** The click handler with both guards passed. *)
Lemma on_square_click_playing (event : Event) (s : App) :
  game_over s = false -> turn (board s) = WHITE ->
  on_square_click event s
  = match selected_square s with
    | Some sel =>
        if int_truth sel then try_move sel (get_square_from_mouse event) s
        else try_select (get_square_from_mouse event) s
    | None => try_select (get_square_from_mouse event) s
    end.
Proof. unfold on_square_click. intros -> ->. reflexivity. Qed.

(** [try_move] when the candidate move is legal. *)
Lemma try_move_legal (sel sq : Square) (s : App) :
  is_legal (board s) (candidate_move (board s) sel sq) = true ->
  let b' := push (board s) (candidate_move (board s) sel sq) in
  let s' := try_move sel sq s in
  board s' = b' /\ selected_square s' = None
  /\ redraws s' = S (redraws s)
  /\ (if is_game_over b'
      then game_over s' = true /\ after_queue s' = after_queue s
           /\ messages s' = messages s ++ [game_over_message b']
      else game_over s' = game_over s /\ after_queue s' = S (after_queue s)
           /\ messages s' = messages s).
Proof.
  intros Hlegal. unfold try_move. rewrite Hlegal.
  unfold check_game_over. cbn [board redraw_board set_selected set_board].
  destruct (is_game_over (push (board s) (candidate_move (board s) sel sq)));
    cbn; repeat split.
Qed.

(** [try_move] when the candidate move is not legal. *)
Lemma try_move_illegal (sel sq : Square) (s : App) :
  is_legal (board s) (candidate_move (board s) sel sq) = false ->
  let s' := try_move sel sq s in
  board s' = board s /\ game_over s' = game_over s
  /\ after_queue s' = after_queue s /\ messages s' = messages s
  /\ selected_square s'
     = (if sq =? sel then None
        else if own_piece_at (board s) sq then Some sq else None).
Proof.
  intros Hillegal. unfold try_move. rewrite Hillegal.
  destruct (sq =? sel); [cbn; repeat split|].
  destruct (own_piece_at (board s) sq); cbn; repeat split.
Qed.

Lemma execute_ai_move_over (r : nat) (s : App) :
  game_over s = true -> execute_ai_move r s = s.
Proof. unfold execute_ai_move. now intros ->. Qed.

Lemma execute_ai_move_selection (r : nat) (s : App) :
  selected_square (execute_ai_move r s) = selected_square s
  /\ after_queue (execute_ai_move r s) = after_queue s.
Proof.
  unfold execute_ai_move. destruct (game_over s); simpl; [auto|].
  unfold check_game_over. cbn [board redraw_board set_board].
  destruct (is_game_over _); cbn; split; reflexivity.
Qed.

(** A click changes the board only by a legal move from the selected
    square, and then leaves nothing selected. *)
Lemma on_square_click_board (event : Event) (s : App) :
  board (on_square_click event s) = board s
  \/ (selected_square (on_square_click event s) = None
      /\ exists sel, selected_square s = Some sel
         /\ is_legal (board s)
              (candidate_move (board s) sel (get_square_from_mouse event)) = true
         /\ board (on_square_click event s)
            = push (board s) (candidate_move (board s) sel (get_square_from_mouse event))).
Proof.
  destruct (game_over s) eqn:Hover;
    [left; now rewrite on_square_click_guard by auto|].
  destruct (turn (board s)) eqn:Hturn;
    [|left; rewrite on_square_click_guard; [reflexivity | right; congruence]].
  rewrite on_square_click_playing by assumption.
  set (sq := get_square_from_mouse event).
  destruct (selected_square s) as [sel|] eqn:Hsel;
    [destruct (int_truth sel)|]; try (left; apply try_select_frame).
  destruct (is_legal (board s) (candidate_move (board s) sel sq)) eqn:Hlegal.
  - right. destruct (try_move_legal sel sq s Hlegal) as [Hb [Hs _]].
    split; [exact Hs|]. exists sel. repeat split; auto.
  - left. apply (try_move_illegal sel sq s Hlegal).
Qed.

(** A click sets the selection only to a square that holds a piece of
    the side to move, White, on a board it leaves as it is. *)
Lemma on_square_click_selects (event : Event) (s : App) (q : Square) :
  selected_square (on_square_click event s) = Some q ->
  selected_square s = Some q
  \/ (board (on_square_click event s) = board s
      /\ exists t, piece_at (board s) q = Some (mkPiece t WHITE)).
Proof.
  destruct (game_over s) eqn:Hover;
    [rewrite on_square_click_guard by auto; auto|].
  destruct (turn (board s)) eqn:Hturn;
    [|rewrite on_square_click_guard; [auto | right; congruence]].
  rewrite on_square_click_playing by assumption.
  set (sq := get_square_from_mouse event).
  assert (Hselect : selected_square (try_select sq s) = Some q ->
    selected_square s = Some q
    \/ (board (try_select sq s) = board s
        /\ exists t, piece_at (board s) q = Some (mkPiece t WHITE))).
  { destruct (try_select_frame sq s) as [Hb [_ [_ [_ Hs]]]]. rewrite Hs.
    destruct (own_piece_at (board s) sq) eqn:Hown; [|auto].
    intros [= <-]. right. split; [exact Hb|].
    now apply own_piece_at_white. }
  destruct (selected_square s) as [sel|] eqn:Hsel;
    [destruct (int_truth sel)|]; auto.
  destruct (is_legal (board s) (candidate_move (board s) sel sq)) eqn:Hlegal.
  - destruct (try_move_legal sel sq s Hlegal) as [_ [Hs _]]. congruence.
  - destruct (try_move_illegal sel sq s Hlegal) as [Hb [_ [_ [_ Hs]]]].
    rewrite Hs. destruct (sq =? sel); [discriminate|].
    destruct (own_piece_at (board s) sq) eqn:Hown; [|discriminate].
    intros [= <-]. right. split; [exact Hb|].
    now apply own_piece_at_white.
Qed.

Lemma terminal_flagged_click (event : Event) (s : App) :
  terminal_flagged s -> terminal_flagged (on_square_click event s).
Proof.
  intros Hflag.
  destruct (game_over s) eqn:Hover;
    [now rewrite on_square_click_guard by auto|].
  destruct (turn (board s)) eqn:Hturn;
    [|rewrite on_square_click_guard; [assumption | right; congruence]].
  rewrite on_square_click_playing by assumption.
  set (sq := get_square_from_mouse event).
  assert (Hselect : terminal_flagged (try_select sq s)).
  { destruct (try_select_frame sq s) as [Hb [Hg _]].
    unfold terminal_flagged. now rewrite Hb, Hg. }
  destruct (selected_square s) as [sel|]; [destruct (int_truth sel)|]; auto.
  destruct (is_legal (board s) (candidate_move (board s) sel sq)) eqn:Hlegal.
  - destruct (try_move_legal sel sq s Hlegal) as [Hb [_ [_ Hrest]]].
    unfold terminal_flagged. rewrite Hb. intros Hend.
    rewrite Hend in Hrest. apply Hrest.
  - destruct (try_move_illegal sel sq s Hlegal) as [Hb [Hg _]].
    unfold terminal_flagged. now rewrite Hb, Hg.
Qed.

Lemma terminal_flagged_after (r : nat) (s : App) (n : nat) :
  terminal_flagged s -> terminal_flagged (execute_ai_move r (set_after_queue n s)).
Proof.
  intros Hflag. unfold execute_ai_move.
  cbn [game_over board set_after_queue].
  destruct (game_over s) eqn:Hover; cbn [negb].
  - unfold terminal_flagged. intros _. exact Hover.
  - unfold terminal_flagged.
    match goal with
    | |- context [check_game_over ?x] =>
        destruct (check_game_over_frame x) as [Hb [_ [_ [_ Hg]]]]
    end.
    rewrite Hb, Hg. intros ->. apply orb_true_r.
Qed.

Lemma terminal_flagged_steps (s s' : App) :
  steps s s' -> terminal_flagged s -> terminal_flagged s'.
Proof.
  intros Hsteps Hflag.
  induction Hsteps as [| s1 s2 Hsteps IH Hstep]; [assumption|].
  destruct Hstep as [event s1 | r s1 n Hqueue].
  - now apply terminal_flagged_click.
  - now apply terminal_flagged_after.
Qed.
End ControllerFacts.

(** ** Guards, end of game, promotion and the selection invariant *)

(** C5.  A click that arrives when the game is over, or when it is not
    White's turn, returns the application state it found: same board,
    same selection, same flag, no callback registered, no redraw, no
    message. *)
Theorem on_square_click_out_of_turn
    (Board : Type) (E : RulesEngine Board) (event : Event) (s : App) :
  game_over s = true \/ turn (board s) <> WHITE ->
  on_square_click event s = s.
Proof. apply on_square_click_guard. Qed.

(** C4.  Once [check_game_over] has reported the end of the game the
    flag [game_over] is set, and from a state with the flag set every
    run of clicks and AI callbacks keeps the flag, the board, the
    selection, the number of redraws and the messages: a click returns
    the state as it is and [execute_ai_move] pushes no move. *)
Theorem game_over_is_absorbing (Board : Type) (E : RulesEngine Board) :
  (forall s : App, fst (check_game_over s) = true ->
     game_over (snd (check_game_over s)) = true)
  /\ (forall (event : Event) (s : App),
        game_over s = true -> on_square_click event s = s)
  /\ (forall (r : nat) (s : App),
        game_over s = true -> execute_ai_move r s = s)
  /\ (forall s s' : App, game_over s = true -> steps s s' ->
        game_over s' = true /\ board s' = board s
        /\ selected_square s' = selected_square s
        /\ redraws s' = redraws s /\ messages s' = messages s).
Proof.
  split; [|split; [|split]].
  - intros s. unfold check_game_over.
    destruct (is_game_over (board s)); simpl; [reflexivity | discriminate].
  - intros event s Hover. apply on_square_click_guard. now left.
  - intros r s Hover. now apply execute_ai_move_over.
  - intros s s' Hover Hsteps.
    induction Hsteps as [| s1 s2 Hsteps IH Hstep]; [repeat split; assumption|].
    destruct IH as [Hover1 [Hb [Hsel [Hr Hm]]]].
    destruct Hstep as [event s1 | r s1 n Hqueue].
    + rewrite on_square_click_guard by (now left). repeat split; assumption.
    + rewrite execute_ai_move_over by exact Hover1. repeat split; assumption.
Qed.

Section InvariantFacts.
Context {Board : Type} `{RulesEngine Board}.
Hypothesis turn_push : forall (b : Board) (m : Move),
  is_legal b m = true -> turn (push b m) = opposite (turn b).

Lemma controller_inv_init : controller_inv init_app.
Proof.
  split.
  - intros q Hq. discriminate.
  - intros Hqueue. now contradiction Hqueue.
Qed.

Lemma controller_inv_select (sq : Square) (s : App) :
  turn (board s) = WHITE -> after_queue s = 0%nat ->
  controller_inv s -> controller_inv (try_select sq s).
Proof.
  intros Hturn Hqueue [Howned _].
  destruct (try_select_frame sq s) as [Hb [_ [Hq [_ Hs]]]].
  split.
  - intros q. rewrite Hs, Hb.
    destruct (own_piece_at (board s) sq) eqn:Hown; [|apply Howned].
    intros [= <-]. now apply own_piece_at_white.
  - rewrite Hq, Hqueue. intros Habs. now contradiction Habs.
Qed.

Lemma controller_inv_move (sel sq : Square) (s : App) :
  turn (board s) = WHITE -> after_queue s = 0%nat ->
  controller_inv s -> controller_inv (try_move sel sq s).
Proof.
  intros Hturn Hqueue [Howned _].
  destruct (is_legal (board s) (candidate_move (board s) sel sq)) eqn:Hlegal.
  - destruct (try_move_legal sel sq s Hlegal) as [Hb [Hs [_ Hrest]]].
    split.
    + intros q. rewrite Hs. discriminate.
    + intros Hpending.
      destruct (is_game_over _) in Hrest.
      * destruct Hrest as [_ [Hq _]]. rewrite Hq, Hqueue in Hpending.
        now contradiction Hpending.
      * destruct Hrest as [_ [Hq _]]. rewrite Hq, Hqueue.
        repeat split; auto. rewrite Hb, turn_push, Hturn by assumption.
        reflexivity.
  - destruct (try_move_illegal sel sq s Hlegal) as [Hb [_ [Hq [_ Hs]]]].
    split.
    + intros q. rewrite Hs, Hb. destruct (sq =? sel); [discriminate|].
      destruct (own_piece_at (board s) sq) eqn:Hown; [|discriminate].
      intros [= <-]. now apply own_piece_at_white.
    + rewrite Hq, Hqueue. intros Habs. now contradiction Habs.
Qed.

Lemma controller_inv_click (event : Event) (s : App) :
  controller_inv s -> controller_inv (on_square_click event s).
Proof.
  intros Hinv.
  destruct (game_over s) eqn:Hover;
    [now rewrite on_square_click_guard by auto|].
  destruct (turn (board s)) eqn:Hturn;
    [|rewrite on_square_click_guard; [assumption | right; congruence]].
  assert (Hqueue : after_queue s = 0%nat).
  { destruct (after_queue s) eqn:Hq; [reflexivity|].
    destruct Hinv as [_ Hpending]. rewrite Hq in Hpending.
    destruct Hpending as [_ [_ Hblack]]; [discriminate | congruence]. }
  rewrite on_square_click_playing by assumption.
  destruct (selected_square s) as [sel|]; [destruct (int_truth sel)|];
    auto using controller_inv_select, controller_inv_move.
Qed.

Lemma controller_inv_after (r : nat) (s : App) (n : nat) :
  after_queue s = S n ->
  controller_inv s -> controller_inv (execute_ai_move r (set_after_queue n s)).
Proof.
  intros Hqueue [_ Hpending]. rewrite Hqueue in Hpending.
  destruct Hpending as [Hone [Hsel _]]; [discriminate|].
  injection Hone as ->.
  destruct (execute_ai_move_selection r (set_after_queue 0 s)) as [Hs Hq].
  split.
  - intros q. rewrite Hs. simpl. rewrite Hsel. discriminate.
  - rewrite Hq. simpl. intros Habs. now contradiction Habs.
Qed.

Lemma controller_inv_steps (s s' : App) :
  steps s s' -> controller_inv s -> controller_inv s'.
Proof.
  intros Hsteps Hinv.
  induction Hsteps as [| s1 s2 Hsteps IH Hstep]; [assumption|].
  destruct Hstep as [event s1 | r s1 n Hqueue].
  - now apply controller_inv_click.
  - now apply controller_inv_after.
Qed.
End InvariantFacts.

(** C10.  In every state the application reaches from its start by
    clicks and AI callbacks, a selected square holds a piece and the
    piece is White, and nothing is selected while an AI callback is
    registered.  A click sets the selection only to a square on which it
    has found a White piece, on a board it leaves unchanged; a click that
    changes the board leaves nothing selected; the AI callback does not
    touch the selection.  The engine passes the turn to the other side
    on every legal move. *)
Theorem selection_holds_white_piece (Board : Type) (E : RulesEngine Board) :
  (forall (b : Board) (m : Move),
     is_legal b m = true -> turn (push b m) = opposite (turn b)) ->
  (forall s : App, reachable s ->
     selection_owned s /\ (after_queue s <> 0%nat -> selected_square s = None))
  /\ (forall (event : Event) (s : App) (q : Square),
        selected_square (on_square_click event s) = Some q ->
        selected_square s = Some q
        \/ (board (on_square_click event s) = board s
            /\ exists t, piece_at (board s) q = Some (mkPiece t WHITE)))
  /\ (forall (event : Event) (s : App),
        board (on_square_click event s) = board s
        \/ selected_square (on_square_click event s) = None)
  /\ (forall (r : nat) (s : App),
        selected_square (execute_ai_move r s) = selected_square s).
Proof.
  intros turn_push. split; [|split; [|split]].
  - intros s Hreach.
    destruct (controller_inv_steps turn_push _ _ Hreach controller_inv_init)
      as [Howned Hpending].
    split; [exact Howned|]. intros Hq. now apply Hpending.
  - intros event s q. apply on_square_click_selects.
  - intros event s. destruct (on_square_click_board event s) as [Hb|[Hs _]]; auto.
  - intros r s. apply execute_ai_move_selection.
Qed.

(** ** Clicks while a1 is selected

    a1 is square 0, and [if self.selected_square:] is false for it: with
    a1 selected the handler takes the branch written for "nothing
    selected". *)

Lemma int_truth_nonzero (n : Z) : n <> 0 -> int_truth n = true.
Proof. unfold int_truth. intros Hn. now destruct (Z.eqb_spec n 0). Qed.

Lemma on_square_click_from_a1
    {Board : Type} `{RulesEngine Board} (event : Event) (s : App) :
  game_over s = false -> turn (board s) = WHITE -> selected_square s = Some 0 ->
  on_square_click event s = try_select (get_square_from_mouse event) s.
Proof.
  intros Hover Hturn Hsel.
  rewrite on_square_click_playing, Hsel by assumption. reflexivity.
Qed.

(** C2 at a1.  White to move, game in progress, a1 selected, and the move
    from a1 to the clicked square legal: the click leaves the board as it
    is, keeps a square selected, registers no AI callback and shows no
    message.  The legal move is not applied. *)
Theorem legal_move_from_a1_not_applied
    (Board : Type) (E : RulesEngine Board) (event : Event) (s : App) :
  game_over s = false -> turn (board s) = WHITE -> selected_square s = Some 0 ->
  is_legal (board s) (candidate_move (board s) 0 (get_square_from_mouse event)) = true ->
  board (on_square_click event s) = board s
  /\ selected_square (on_square_click event s) <> None
  /\ after_queue (on_square_click event s) = after_queue s
  /\ game_over (on_square_click event s) = false
  /\ messages (on_square_click event s) = messages s.
Proof.
  intros Hover Hturn Hsel _.
  rewrite on_square_click_from_a1 by assumption.
  destruct (try_select_frame (get_square_from_mouse event) s)
    as [Hb [Hg [Hq [Hm Hs]]]].
  rewrite Hb, Hg, Hq, Hm, Hs, Hsel, Hover. repeat split.
  now destruct (own_piece_at (board s) (get_square_from_mouse event)).
Qed.

(** C6 at a1.  White to move, game in progress, nothing selected, a
    White piece on a1: the first click on a1 selects it and the second
    click on a1 leaves it selected, where the specification has the
    selection cleared. *)
Theorem second_click_on_a1_keeps_selection
    (Board : Type) (E : RulesEngine Board) (e1 e2 : Event) (s : App) :
  game_over s = false -> turn (board s) = WHITE -> selected_square s = None ->
  get_square_from_mouse e1 = 0 -> get_square_from_mouse e2 = 0 ->
  own_piece_at (board s) 0 = true ->
  selected_square (on_square_click e1 s) = Some 0
  /\ selected_square (on_square_click e2 (on_square_click e1 s)) = Some 0
  /\ board (on_square_click e2 (on_square_click e1 s)) = board s.
Proof.
  intros Hover Hturn Hsel He1 He2 Hown.
  assert (Hfirst : on_square_click e1 s = redraw_board (set_selected (Some 0) s)).
  { rewrite on_square_click_playing, Hsel, He1 by assumption.
    unfold try_select. now rewrite Hown. }
  rewrite Hfirst. split; [reflexivity|].
  rewrite on_square_click_from_a1, He2 by assumption || reflexivity.
  unfold try_select. cbn [board redraw_board set_selected].
  rewrite Hown. split; reflexivity.
Qed.

(** C7 at a1.  White to move, game in progress, a1 selected, and a click
    on another square that holds no piece of the side to move, the move
    from a1 to it being illegal: the click changes nothing, so a1 stays
    selected, where the specification has the selection cleared. *)
Theorem illegal_move_from_a1_keeps_selection
    (Board : Type) (E : RulesEngine Board) (event : Event) (s : App) :
  game_over s = false -> turn (board s) = WHITE -> selected_square s = Some 0 ->
  get_square_from_mouse event <> 0 ->
  is_legal (board s) (candidate_move (board s) 0 (get_square_from_mouse event)) = false ->
  own_piece_at (board s) (get_square_from_mouse event) = false ->
  on_square_click event s = s
  /\ selected_square (on_square_click event s) = Some 0.
Proof.
  intros Hover Hturn Hsel _ _ Hown.
  rewrite on_square_click_from_a1 by assumption.
  unfold try_select. rewrite Hown. auto.
Qed.

(** ** Clicks while another square is selected *)

(** X1.  With a square other than a1 selected, White to move and the
    game in progress, a click that makes a legal candidate move pushes exactly
    that move and clears the selection; then the end of the game is
    reported (flag set, message shown) or one AI callback is
    registered. *)
Theorem legal_move_is_applied
    (Board : Type) (E : RulesEngine Board) (event : Event) (s : App) (sel : Square) :
  game_over s = false -> turn (board s) = WHITE ->
  selected_square s = Some sel -> sel <> 0 ->
  is_legal (board s) (candidate_move (board s) sel (get_square_from_mouse event)) = true ->
  board (on_square_click event s)
  = push (board s) (candidate_move (board s) sel (get_square_from_mouse event))
  /\ selected_square (on_square_click event s) = None
  /\ (if is_game_over (board (on_square_click event s))
      then game_over (on_square_click event s) = true
           /\ after_queue (on_square_click event s) = after_queue s
           /\ messages (on_square_click event s)
              = messages s ++ [game_over_message (board (on_square_click event s))]
      else game_over (on_square_click event s) = false
           /\ after_queue (on_square_click event s) = S (after_queue s)
           /\ messages (on_square_click event s) = messages s).
Proof.
  intros Hover Hturn Hsel Hnz Hlegal.
  rewrite on_square_click_playing, Hsel, int_truth_nonzero by assumption.
  destruct (try_move_legal sel (get_square_from_mouse event) s Hlegal)
    as [Hb [Hs [_ Hrest]]].
  rewrite Hb. split; [reflexivity|]. split; [exact Hs|].
  rewrite Hover in Hrest. exact Hrest.
Qed.

(** X2.  With nothing selected, White to move and the game in progress,
    a click on a square other than a1 that holds a White piece selects
    it, and a second click there clears the selection and leaves the
    board as it is.  The engine has no legal move from a square to
    itself. *)
Theorem second_click_deselects
    (Board : Type) (E : RulesEngine Board) (e1 e2 : Event) (s : App) (x : Square) :
  game_over s = false -> turn (board s) = WHITE -> selected_square s = None ->
  get_square_from_mouse e1 = x -> get_square_from_mouse e2 = x -> x <> 0 ->
  own_piece_at (board s) x = true ->
  is_legal (board s) (candidate_move (board s) x x) = false ->
  selected_square (on_square_click e1 s) = Some x
  /\ selected_square (on_square_click e2 (on_square_click e1 s)) = None
  /\ board (on_square_click e2 (on_square_click e1 s)) = board s.
Proof.
  intros Hover Hturn Hsel He1 He2 Hnz Hown Hillegal.
  assert (Hfirst : on_square_click e1 s = redraw_board (set_selected (Some x) s)).
  { rewrite on_square_click_playing, Hsel, He1 by assumption.
    unfold try_select. now rewrite Hown. }
  rewrite Hfirst. split; [reflexivity|].
  rewrite on_square_click_playing by assumption.
  cbn [selected_square redraw_board set_selected].
  rewrite int_truth_nonzero, He2 by assumption.
  destruct (try_move_illegal x x (redraw_board (set_selected (Some x) s)) Hillegal)
    as [Hb [_ [_ [_ Hs]]]].
  rewrite Hs, Hb, Z.eqb_refl. split; reflexivity.
Qed.

(** X3.  With a square other than a1 selected, White to move and the
    game in progress, a click on a different square that makes an illegal
    candidate move applies no move; the clicked square becomes the
    selection when it holds a piece of the side to move, and the
    selection is cleared otherwise. *)
Theorem illegal_move_reselects_or_clears
    (Board : Type) (E : RulesEngine Board) (event : Event) (s : App) (sel : Square) :
  game_over s = false -> turn (board s) = WHITE ->
  selected_square s = Some sel -> sel <> 0 ->
  get_square_from_mouse event <> sel ->
  is_legal (board s) (candidate_move (board s) sel (get_square_from_mouse event)) = false ->
  board (on_square_click event s) = board s
  /\ after_queue (on_square_click event s) = after_queue s
  /\ selected_square (on_square_click event s)
     = (if own_piece_at (board s) (get_square_from_mouse event)
        then Some (get_square_from_mouse event) else None).
Proof.
  intros Hover Hturn Hsel Hnz Hother Hillegal.
  rewrite on_square_click_playing, Hsel, int_truth_nonzero by assumption.
  destruct (try_move_illegal sel (get_square_from_mouse event) s Hillegal)
    as [Hb [_ [Hq [_ Hs]]]].
  rewrite Hb, Hq, Hs. repeat split.
  now destruct (Z.eqb_spec (get_square_from_mouse event) sel).
Qed.

(** X4.  In every state the application reaches from its start, a board
    on which the game has ended comes with the flag [game_over] set:
    every push is followed by [check_game_over] before the next event.
    The game has not ended on the engine's starting board. *)
Theorem terminal_board_is_flagged
    (Board : Type) (E : RulesEngine Board) (s : App) :
  is_game_over start_board = false ->
  reachable s -> is_game_over (board s) = true -> game_over s = true.
Proof.
  intros Hstart Hreach.
  apply (terminal_flagged_steps _ _ Hreach).
  unfold terminal_flagged. cbn [board init_app]. congruence.
Qed.

(** ** Instances on the concrete engine *)

(** The concrete engine's membership test agrees with its enumeration. *)
Lemma mini_is_legal_In (b : MiniChess.Position) (m : Move) :
  is_legal b m = true <-> In m (legal_moves b).
Proof.
  cbn [is_legal legal_moves MiniChess.engine]. rewrite existsb_exists. split.
  - intros [x [Hin Heq]]. apply Move_eqb_eq in Heq. now subst.
  - intros Hin. exists m. split; [exact Hin | now apply Move_eqb_eq].
Qed.

Lemma mini_pop_push (b : MiniChess.Position) (m : Move) : pop (push b m) = b.
Proof. destruct b. reflexivity. Qed.

Lemma mini_turn_push (b : MiniChess.Position) (m : Move) :
  turn (push b m) = opposite (turn b).
Proof. reflexivity. Qed.

Lemma step_ai_reply (r : nat) (s : @App MiniChess.Position) (n : nat) :
  after_queue s = S n -> step s (MiniChess.ai_reply r s).
Proof.
  intros Hq. unfold MiniChess.ai_reply. rewrite Hq. now apply step_after.
Qed.

Lemma step_click_at (f r : Z) (s : @App MiniChess.Position) :
  step s (MiniChess.click f r s).
Proof. apply step_click. Qed.

(** The run 1. a4 e5 followed by a click on a1 is a run of the
    application. *)
Lemma a1_selected_after_a4_e5_reachable :
  reachable MiniChess.a1_selected_after_a4_e5.
Proof.
  unfold reachable, MiniChess.a1_selected_after_a4_e5, MiniChess.after_a4_e5.
  eapply steps_next; [|apply step_click_at].
  eapply steps_next; [|apply (step_ai_reply 9 _ 0); vm_compute; reflexivity].
  eapply steps_next; [|apply step_click_at].
  eapply steps_next; [|apply step_click_at].
  apply steps_refl.
Qed.

(** Fool's mate is a run of the application. *)
Lemma fools_mate_reachable : reachable MiniChess.fools_mate.
Proof.
  unfold reachable, MiniChess.fools_mate.
  eapply steps_next; [|apply (step_ai_reply 20 _ 0); vm_compute; reflexivity].
  eapply steps_next; [|apply step_click_at].
  eapply steps_next; [|apply step_click_at].
  eapply steps_next; [|apply (step_ai_reply 9 _ 0); vm_compute; reflexivity].
  eapply steps_next; [|apply step_click_at].
  eapply steps_next; [|apply step_click_at].
  apply steps_refl.
Qed.

(** After 1. f3 e5 2. g4 Qh4 the application has reported the mate. *)
Example fools_mate_reported :
  game_over MiniChess.fools_mate = true
  /\ messages MiniChess.fools_mate = ["Checkmate! Black wins."%string].
Proof. vm_compute. split; reflexivity. Qed.

(** With the pawn on e7 selected, a click on e8 promotes it to a queen. *)
Example pawn_on_e7_promotes :
  candidate_move MiniChess.pawn_on_e7 52 60 = mkMove 52 60 (Some QUEEN)
  /\ piece_at (board (MiniChess.click 4 7 MiniChess.pawn_on_e7_selected)) 60
     = Some (mkPiece QUEEN WHITE).
Proof. vm_compute. split; reflexivity. Qed.

Lemma make_ai_move_minimal_witness :
  legal_moves MiniChess.board_after_e4 <> []
  /\ exists m,
       make_ai_move 3 MiniChess.board_after_e4
       = (true, push MiniChess.board_after_e4 m)
       /\ In m (legal_moves MiniChess.board_after_e4)
       /\ forall m', In m' (legal_moves MiniChess.board_after_e4) ->
            evaluate_board (push MiniChess.board_after_e4 m)
            <= evaluate_board (push MiniChess.board_after_e4 m').
Proof.
  assert (Hne : legal_moves MiniChess.board_after_e4 <> [])
    by (vm_compute; discriminate).
  split; [exact Hne|].
  apply make_ai_move_minimal; [intros m _; apply mini_pop_push | exact Hne].
Defined.

Lemma make_ai_move_frame_witness :
  (forall done todo, legal_moves MiniChess.board_after_e4 = done ++ todo ->
     s_board (search_loop done (mkSearch MiniChess.board_after_e4 [] Inf))
     = MiniChess.board_after_e4)
  /\ exists m, In m (legal_moves MiniChess.board_after_e4)
       /\ make_ai_move 3 MiniChess.board_after_e4
          = (true, push MiniChess.board_after_e4 m).
Proof.
  destruct (make_ai_move_frame _ _ MiniChess.board_after_e4 3
              (fun m _ => mini_pop_push MiniChess.board_after_e4 m))
    as [_ [_ [Hloop Hmove]]].
  split; [exact Hloop|]. apply Hmove. vm_compute. discriminate.
Defined.

Lemma evaluate_board_material_witness :
  evaluate_board MiniChess.knights_back = evaluate_board MiniChess.initial.
Proof.
  apply (evaluate_board_material _ _ MiniChess.initial).
  intros sq Hsq. vm_compute in Hsq.
  repeat (destruct Hsq as [<-|Hsq]; [vm_compute; reflexivity|]).
  destruct Hsq.
Defined.

Lemma game_over_is_absorbing_witness :
  game_over MiniChess.fools_mate = true
  /\ on_square_click (MiniChess.click_at 4 1) MiniChess.fools_mate
     = MiniChess.fools_mate
  /\ execute_ai_move 0 MiniChess.fools_mate = MiniChess.fools_mate.
Proof.
  assert (Hover : game_over MiniChess.fools_mate = true)
    by (vm_compute; reflexivity).
  destruct (game_over_is_absorbing _ MiniChess.engine) as [_ [Hclick [Hai _]]].
  split; [exact Hover|]. split; [now apply Hclick | now apply Hai].
Defined.

Lemma on_square_click_out_of_turn_witness :
  turn (board MiniChess.after_e4) <> WHITE
  /\ on_square_click (MiniChess.click_at 4 6) MiniChess.after_e4
     = MiniChess.after_e4.
Proof.
  assert (Hturn : turn (board MiniChess.after_e4) <> WHITE)
    by (vm_compute; discriminate).
  split; [exact Hturn|].
  apply on_square_click_out_of_turn. right. exact Hturn.
Defined.

Lemma pawn_on_e7_selection_owned : selection_owned MiniChess.pawn_on_e7_selected.
Proof.
  intros q Hq. vm_compute in Hq. injection Hq as <-.
  exists PAWN. vm_compute. reflexivity.
Qed.

Lemma selection_holds_white_piece_witness :
  selection_owned MiniChess.a1_selected_after_a4_e5
  /\ (after_queue MiniChess.a1_selected_after_a4_e5 <> 0%nat ->
      selected_square MiniChess.a1_selected_after_a4_e5 = None).
Proof.
  apply (selection_holds_white_piece _ MiniChess.engine
           (fun b m _ => mini_turn_push b m)).
  exact a1_selected_after_a4_e5_reachable.
Defined.

Lemma legal_move_from_a1_not_applied_witness :
  is_legal (board MiniChess.a1_selected_after_a4_e5)
    (candidate_move (board MiniChess.a1_selected_after_a4_e5) 0
       (get_square_from_mouse (MiniChess.click_at 0 1))) = true
  /\ board (on_square_click (MiniChess.click_at 0 1) MiniChess.a1_selected_after_a4_e5)
     = board MiniChess.a1_selected_after_a4_e5
  /\ selected_square
       (on_square_click (MiniChess.click_at 0 1) MiniChess.a1_selected_after_a4_e5)
     <> None.
Proof.
  assert (Hlegal : is_legal (board MiniChess.a1_selected_after_a4_e5)
    (candidate_move (board MiniChess.a1_selected_after_a4_e5) 0
       (get_square_from_mouse (MiniChess.click_at 0 1))) = true)
    by (vm_compute; reflexivity).
  split; [exact Hlegal|].
  destruct (legal_move_from_a1_not_applied _ _ (MiniChess.click_at 0 1)
              MiniChess.a1_selected_after_a4_e5) as [Hb [Hs _]];
    [vm_compute; reflexivity .. | exact Hlegal | auto].
Defined.

Lemma second_click_on_a1_keeps_selection_witness :
  selected_square (MiniChess.click 0 0 init_app) = Some 0
  /\ selected_square (MiniChess.click 0 0 (MiniChess.click 0 0 init_app)) = Some 0
  /\ board (MiniChess.click 0 0 (MiniChess.click 0 0 init_app)) = board init_app.
Proof.
  apply (second_click_on_a1_keeps_selection _ MiniChess.engine);
    vm_compute; reflexivity.
Defined.

Lemma illegal_move_from_a1_keeps_selection_witness :
  on_square_click (MiniChess.click_at 0 2) MiniChess.a1_selected
  = MiniChess.a1_selected
  /\ selected_square (on_square_click (MiniChess.click_at 0 2) MiniChess.a1_selected)
     = Some 0.
Proof.
  apply illegal_move_from_a1_keeps_selection;
    try (vm_compute; reflexivity).
  vm_compute. discriminate.
Defined.

Lemma legal_move_is_applied_witness :
  board (MiniChess.click 4 3 (MiniChess.click 4 1 init_app))
  = push MiniChess.initial (mkMove 12 28 None)
  /\ selected_square (MiniChess.click 4 3 (MiniChess.click 4 1 init_app)) = None
  /\ after_queue (MiniChess.click 4 3 (MiniChess.click 4 1 init_app)) = 1%nat.
Proof.
  destruct (legal_move_is_applied _ MiniChess.engine (MiniChess.click_at 4 3)
              (MiniChess.click 4 1 init_app) 12) as [Hb [Hs Hrest]];
    try (vm_compute; reflexivity); [lia|].
  split; [etransitivity; [exact Hb | vm_compute; reflexivity]|].
  split; [exact Hs|]. vm_compute. reflexivity.
Defined.

Lemma second_click_deselects_witness :
  selected_square (MiniChess.click 4 1 init_app) = Some 12
  /\ selected_square (MiniChess.click 4 1 (MiniChess.click 4 1 init_app)) = None
  /\ board (MiniChess.click 4 1 (MiniChess.click 4 1 init_app)) = board init_app.
Proof.
  apply (second_click_deselects _ MiniChess.engine);
    try (vm_compute; reflexivity). lia.
Defined.

Lemma illegal_move_reselects_or_clears_witness :
  board (MiniChess.click 3 1 (MiniChess.click 4 1 init_app)) = board init_app
  /\ selected_square (MiniChess.click 3 1 (MiniChess.click 4 1 init_app)) = Some 11
  /\ selected_square (MiniChess.click 4 4 (MiniChess.click 4 1 init_app)) = None.
Proof.
  destruct (illegal_move_reselects_or_clears _ MiniChess.engine
              (MiniChess.click_at 3 1) (MiniChess.click 4 1 init_app) 12)
    as [Hb [_ Hs]]; try (vm_compute; reflexivity); [lia | vm_compute; lia |].
  destruct (illegal_move_reselects_or_clears _ MiniChess.engine
              (MiniChess.click_at 4 4) (MiniChess.click 4 1 init_app) 12)
    as [_ [_ Hs']]; try (vm_compute; reflexivity); [lia | vm_compute; lia |].
  split; [exact Hb|]. split; [exact Hs | exact Hs'].
Defined.

Lemma terminal_board_is_flagged_witness :
  is_game_over (board MiniChess.fools_mate) = true
  /\ game_over MiniChess.fools_mate = true.
Proof.
  assert (Hend : is_game_over (board MiniChess.fools_mate) = true)
    by (vm_compute; reflexivity).
  split; [exact Hend|].
  apply (terminal_board_is_flagged _ MiniChess.engine);
    [vm_compute; reflexivity | exact fools_mate_reachable | exact Hend].
Defined.

(** * Clicks and the canvas *)

(** ** From pixels to squares *)

Lemma square_file_rank (f r : Z) :
  0 <= f < 8 -> 0 <= r ->
  square_file (square f r) = f /\ square_rank (square f r) = r.
Proof.
  intros Hf Hr. unfold square_file, square_rank, square. split.
  - change 7 with (Z.ones 3). rewrite Z.land_ones by lia.
    change (2 ^ 3) with 8. rewrite Z.add_comm, Z.mod_add by lia.
    apply Z.mod_small. lia.
  - rewrite Z.shiftr_div_pow2 by lia. change (2 ^ 3) with 8.
    rewrite Z.add_comm, Z.div_add by lia. rewrite Z.div_small by lia. lia.
Qed.

Lemma pixel_div (x : Z) : 0 <= x < 640 -> 0 <= x / 80 < 8.
Proof.
  intros Hx. split; [apply Z.div_pos | apply Z.div_lt_upper_bound]; lia.
Qed.

Lemma pixel_in_cell (k x : Z) : k * 80 <= x < k * 80 + 80 -> x / 80 = k.
Proof.
  intros Hx. symmetry. apply (Z.div_unique x 80 k (x - k * 80)); lia.
Qed.

(** X5.  A click inside the 640 by 640 canvas is read as a square of the
    board (0..63) whose file is the column of the click and whose rank is
    7 minus its row, rows counted from the top: two clicks are read as
    the same square exactly when they fall in the same 80 by 80 cell. *)
Theorem click_square_file_rank (event : Event) :
  0 <= ev_x event < 640 -> 0 <= ev_y event < 640 ->
  0 <= get_square_from_mouse event < 64
  /\ square_file (get_square_from_mouse event) = ev_x event / SQUARE_SIZE
  /\ square_rank (get_square_from_mouse event) = 7 - ev_y event / SQUARE_SIZE.
Proof.
  intros Hx Hy. split; [now apply get_square_from_mouse_on_board|].
  unfold get_square_from_mouse, SQUARE_SIZE.
  pose proof (pixel_div _ Hx). pose proof (pixel_div _ Hy).
  apply square_file_rank; lia.
Qed.

Lemma click_square_file_rank_witness :
  0 <= get_square_from_mouse (mkEvent 330 500) < 64
  /\ square_file (get_square_from_mouse (mkEvent 330 500)) = 330 / SQUARE_SIZE
  /\ square_rank (get_square_from_mouse (mkEvent 330 500)) = 7 - 500 / SQUARE_SIZE.
Proof. apply click_square_file_rank; simpl; lia. Defined.

(** X6.  [get_square_from_mouse] checks no bounds: a click 640 pixels to
    the right of a point is read as the square one row above that point,
    and a click right of the top row of the canvas is read as 64, which
    is no square of the board. *)
Theorem click_beyond_canvas_aliases :
  (forall x y : Z,
     get_square_from_mouse (mkEvent (x + 640) y)
     = get_square_from_mouse (mkEvent x (y - 80)))
  /\ (forall x y : Z, 640 <= x < 720 -> 0 <= y < 80 ->
        get_square_from_mouse (mkEvent x y) = 64
        /\ ~ In (get_square_from_mouse (mkEvent x y)) SQUARES).
Proof.
  assert (Halias : forall x y : Z,
     get_square_from_mouse (mkEvent (x + 640) y)
     = get_square_from_mouse (mkEvent x (y - 80))).
  { intros x y. unfold get_square_from_mouse, square, SQUARE_SIZE.
    cbn [ev_x ev_y].
    replace (x + 640) with (x + 8 * 80) by lia.
    replace (y - 80) with (y + (-1) * 80) by lia.
    rewrite !Z.div_add by lia. lia. }
  split; [exact Halias|].
  intros x y Hx Hy.
  assert (Hsq : get_square_from_mouse (mkEvent x y) = 64).
  { unfold get_square_from_mouse, square, SQUARE_SIZE. cbn [ev_x ev_y].
    rewrite (pixel_in_cell 8 x) by lia. rewrite (pixel_in_cell 0 y) by lia.
    reflexivity. }
  split; [exact Hsq|]. rewrite Hsq. unfold SQUARES. intros Hin.
  apply in_map_iff in Hin. destruct Hin as [n [Hn Hin]].
  apply in_seq in Hin. lia.
Qed.

(** ** What [redraw_board] draws *)

Lemma in_range (n k : Z) : In k (range n) <-> 0 <= k < n.
Proof.
  unfold range. rewrite in_map_iff. split.
  - intros [i [<- Hi]]. apply in_seq in Hi. lia.
  - intros Hk. exists (Z.to_nat k). split; [lia | apply in_seq; lia].
Qed.

Lemma filter_flat_map {A B : Type} (p : B -> bool) (f : A -> list B) (l : list A) :
  filter p (flat_map f l) = flat_map (fun a => filter p (f a)) l.
Proof.
  induction l as [|a l IH]; simpl; [reflexivity|].
  now rewrite filter_app, IH.
Qed.

Lemma flat_map_nil {A B : Type} (f : A -> list B) (l : list A) :
  (forall a, In a l -> f a = []) -> flat_map f l = [].
Proof.
  induction l as [|a l IH]; intros Hnil; simpl; [reflexivity|].
  rewrite (Hnil a) by now left. apply IH. intros x Hx. apply Hnil. now right.
Qed.

Section CanvasFacts.
Context {Board : Type} `{RulesEngine Board}.

Lemma in_draw_board (b : Board) (sel : option Square) (i : Item) :
  In i (draw_board b sel)
  <-> exists r c, 0 <= r < 8 /\ 0 <= c < 8 /\ In i (draw_cell b sel r c).
Proof.
  unfold draw_board. rewrite in_flat_map. split.
  - intros [r [Hr Hin]]. apply in_flat_map in Hin. destruct Hin as [c [Hc Hin]].
    apply in_range in Hr. apply in_range in Hc. exists r, c. auto.
  - intros [r [c [Hr [Hc Hin]]]]. exists r. split; [now apply in_range|].
    apply in_flat_map. exists c. split; [now apply in_range | exact Hin].
Qed.

Lemma in_draw_cell (b : Board) (sel : option Square) (r c : Z) (i : Item) :
  In i (draw_cell b sel r c)
  <-> i = Cell (c * 80) (r * 80) (c * 80 + 80) (r * 80 + 80)
            (if (r + c) mod 2 =? 0 then LIGHT_SQUARE else DARK_SQUARE)
      \/ (is_selected sel (square c (7 - r)) = true
          /\ i = Highlight (c * 80 + 2) (r * 80 + 2) (c * 80 + 80 - 2)
                   (r * 80 + 80 - 2) HIGHLIGHT_COLOR 4)
      \/ (exists piece, piece_at b (square c (7 - r)) = Some piece
          /\ i = Glyph (c * 80 + 40) (r * 80 + 40) piece).
Proof.
  unfold draw_cell, SQUARE_SIZE. change (80 / 2) with 40.
  rewrite !in_app_iff.
  set (cell := Cell _ _ _ _ _). set (hl := Highlight _ _ _ _ _ _).
  assert (H1 : In i [cell] <-> i = cell).
  { cbn [In]. split; [intros [<-|[]]; reflexivity | intros ->; now left]. }
  assert (H2 : In i (if is_selected sel (square c (7 - r)) then [hl] else [])
               <-> is_selected sel (square c (7 - r)) = true /\ i = hl).
  { destruct (is_selected sel (square c (7 - r))); cbn [In]; split.
    - intros [<-|[]]. auto.
    - intros [_ ->]. now left.
    - intros [].
    - intros [Habs _]. discriminate. }
  assert (H3 : In i match piece_at b (square c (7 - r)) with
                    | Some piece => [Glyph (c * 80 + 40) (r * 80 + 40) piece]
                    | None => []
                    end
               <-> exists piece, piece_at b (square c (7 - r)) = Some piece
                     /\ i = Glyph (c * 80 + 40) (r * 80 + 40) piece).
  { destruct (piece_at b (square c (7 - r))) as [p|]; cbn [In]; split.
    - intros [<-|[]]. now exists p.
    - intros [q [[= <-] ->]]. now left.
    - intros [].
    - intros [q [Habs _]]. discriminate. }
  rewrite H1, H2, H3. reflexivity.
Qed.

Lemma cell_point_square (r c x y : Z) :
  c * 80 <= x < c * 80 + 80 -> r * 80 <= y < r * 80 + 80 ->
  get_square_from_mouse (mkEvent x y) = square c (7 - r).
Proof.
  intros Hx Hy. unfold get_square_from_mouse, SQUARE_SIZE. cbn [ev_x ev_y].
  now rewrite (pixel_in_cell c x), (pixel_in_cell r y).
Qed.
End CanvasFacts.

Lemma square_of_file_rank (sq : Square) :
  0 <= sq < 64 ->
  0 <= sq mod 8 < 8 /\ 0 <= 7 - sq / 8 < 8
  /\ square (sq mod 8) (7 - (7 - sq / 8)) = sq.
Proof.
  intros Hsq.
  assert (0 <= sq mod 8 < 8) by (apply Z.mod_pos_bound; lia).
  assert (0 <= sq / 8 < 8)
    by (split; [apply Z.div_pos | apply Z.div_lt_upper_bound]; lia).
  repeat split; try lia. unfold square.
  pose proof (Z.div_mod sq 8). lia.
Qed.

Lemma cell_parity (r c : Z) :
  0 <= r < 8 -> 0 <= c < 8 ->
  ((r + c) mod 2 =? 0) = Z.odd (c + (7 - r)).
Proof.
  intros Hr Hc.
  assert (Hrs : r = 0 \/ r = 1 \/ r = 2 \/ r = 3 \/ r = 4 \/ r = 5 \/ r = 6 \/ r = 7)
    by lia.
  assert (Hcs : c = 0 \/ c = 1 \/ c = 2 \/ c = 3 \/ c = 4 \/ c = 5 \/ c = 6 \/ c = 7)
    by lia.
  repeat (destruct Hrs as [->|Hrs]); subst;
    repeat (destruct Hcs as [->|Hcs]); subst; reflexivity.
Qed.

(** X7.  Every piece [redraw_board] draws stands inside the canvas, at a
    point where a click is read as a square holding exactly that piece;
    and every piece on a square of the board is drawn at such a point. *)
Theorem drawn_piece_is_clicked_piece
    (Board : Type) (E : RulesEngine Board) (b : Board) (sel : option Square) :
  (forall x y p, In (Glyph x y p) (draw_board b sel) ->
     0 <= x < 640 /\ 0 <= y < 640
     /\ piece_at b (get_square_from_mouse (mkEvent x y)) = Some p)
  /\ (forall sq p, 0 <= sq < 64 -> piece_at b sq = Some p ->
        exists x y, In (Glyph x y p) (draw_board b sel)
          /\ get_square_from_mouse (mkEvent x y) = sq).
Proof.
  split.
  - intros x y p Hin. apply in_draw_board in Hin.
    destruct Hin as [r [c [Hr [Hc Hin]]]]. apply in_draw_cell in Hin.
    destruct Hin as [Habs|[[_ Habs]|[piece [Hpiece Heq]]]]; try discriminate.
    injection Heq as -> -> ->.
    rewrite (cell_point_square r c) by lia. repeat split; try lia. exact Hpiece.
  - intros sq p Hsq Hpiece.
    destruct (square_of_file_rank sq Hsq) as [Hc [Hr Hsquare]].
    exists (sq mod 8 * 80 + 40), ((7 - sq / 8) * 80 + 40). split.
    + apply in_draw_board. exists (7 - sq / 8), (sq mod 8).
      split; [exact Hr|]. split; [exact Hc|]. apply in_draw_cell.
      right. right. exists p. rewrite Hsquare. auto.
    + rewrite (cell_point_square (7 - sq / 8) (sq mod 8)) by lia. exact Hsquare.
Qed.

(** X8.  Every square [redraw_board] draws is an 80 by 80 cell inside
    the canvas, light when the file and rank of the square a click in it
    is read as add up to an odd number and dark otherwise (a1 is dark);
    and every square of the board is drawn. *)
Theorem squares_drawn_in_chess_colours
    (Board : Type) (E : RulesEngine Board) (b : Board) (sel : option Square) :
  (forall x1 y1 x2 y2 fill, In (Cell x1 y1 x2 y2 fill) (draw_board b sel) ->
     x2 = x1 + 80 /\ y2 = y1 + 80 /\ 0 <= x1 /\ x2 <= 640 /\ 0 <= y1 /\ y2 <= 640
     /\ fill = if Z.odd (square_file (get_square_from_mouse (mkEvent x1 y1))
                         + square_rank (get_square_from_mouse (mkEvent x1 y1)))
               then LIGHT_SQUARE else DARK_SQUARE)
  /\ (forall sq, 0 <= sq < 64 ->
        exists x1 y1 x2 y2 fill, In (Cell x1 y1 x2 y2 fill) (draw_board b sel)
          /\ get_square_from_mouse (mkEvent x1 y1) = sq).
Proof.
  split.
  - intros x1 y1 x2 y2 fill Hin. apply in_draw_board in Hin.
    destruct Hin as [r [c [Hr [Hc Hin]]]]. apply in_draw_cell in Hin.
    destruct Hin as [Heq|[[_ Habs]|[piece [_ Habs]]]]; try discriminate.
    injection Heq as -> -> -> -> ->.
    rewrite (cell_point_square r c) by lia.
    destruct (square_file_rank c (7 - r)) as [-> ->]; try lia.
    rewrite cell_parity by assumption. repeat split; lia.
  - intros sq Hsq.
    destruct (square_of_file_rank sq Hsq) as [Hc [Hr Hsquare]].
    eexists _, _, _, _, _. split.
    + apply in_draw_board. exists (7 - sq / 8), (sq mod 8).
      split; [exact Hr|]. split; [exact Hc|]. apply in_draw_cell.
      left. reflexivity.
    + rewrite (cell_point_square (7 - sq / 8) (sq mod 8)) by lia. exact Hsquare.
Qed.

Section HighlightFacts.
Context {Board : Type} `{RulesEngine Board}.

Lemma filter_highlight_cell (b : Board) (sel : option Square) (r c : Z) :
  filter is_highlight (draw_cell b sel r c)
  = if is_selected sel (square c (7 - r))
    then [Highlight (c * 80 + 2) (r * 80 + 2) (c * 80 + 80 - 2)
                    (r * 80 + 80 - 2) HIGHLIGHT_COLOR 4]
    else [].
Proof.
  unfold draw_cell, SQUARE_SIZE.
  destruct (is_selected sel (square c (7 - r)));
    destruct (piece_at b (square c (7 - r))); reflexivity.
Qed.

Lemma filter_highlight_board (b : Board) (sel : option Square) :
  filter is_highlight (draw_board b sel)
  = flat_map (fun r => flat_map (fun c =>
      if is_selected sel (square c (7 - r))
      then [Highlight (c * 80 + 2) (r * 80 + 2) (c * 80 + 80 - 2)
                      (r * 80 + 80 - 2) HIGHLIGHT_COLOR 4]
      else []) (range COLS)) (range ROWS).
Proof.
  unfold draw_board. rewrite filter_flat_map.
  apply flat_map_ext. intros r. rewrite filter_flat_map.
  apply flat_map_ext. intros c. apply filter_highlight_cell.
Qed.
End HighlightFacts.

(** X9.  [redraw_board] draws no highlight when nothing is selected,
    and exactly one when a square of the board is selected, a1 (square 0)
    included: a rectangle two pixels inside the cell of that square. *)
Theorem one_highlight_on_selected_square
    (Board : Type) (E : RulesEngine Board) (b : Board) (sel : option Square) :
  filter is_highlight (draw_board b sel)
  = match sel with
    | Some q =>
        if (0 <=? q) && (q <? 64)
        then [Highlight (square_file q * 80 + 2) ((7 - square_rank q) * 80 + 2)
                        (square_file q * 80 + 78) ((7 - square_rank q) * 80 + 78)
                        HIGHLIGHT_COLOR 4]
        else []
    | None => []
    end.
Proof.
  rewrite filter_highlight_board. destruct sel as [q|]; [|reflexivity].
  destruct (Z.leb_spec 0 q) as [Hlo|Hlo]; destruct (Z.ltb_spec q 64) as [Hhi|Hhi];
    cbn [andb].
  - assert (Hin : In q SQUARES).
    { unfold SQUARES. apply in_map_iff. exists (Z.to_nat q).
      split; [lia | apply in_seq; lia]. }
    unfold SQUARES in Hin. cbn in Hin.
    repeat (destruct Hin as [<-|Hin]; [vm_compute; reflexivity|]).
    destruct Hin.
  - apply flat_map_nil. intros r Hr. apply flat_map_nil. intros c Hc.
    apply in_range in Hr. apply in_range in Hc. unfold ROWS, COLS in *.
    cbn [is_selected]. unfold square.
    destruct (Z.eqb_spec (( 7 - r) * 8 + c) q); [lia | reflexivity].
  - apply flat_map_nil. intros r Hr. apply flat_map_nil. intros c Hc.
    apply in_range in Hr. apply in_range in Hc. unfold ROWS, COLS in *.
    cbn [is_selected]. unfold square.
    destruct (Z.eqb_spec (( 7 - r) * 8 + c) q); [lia | reflexivity].
  - lia.
Qed.

(** ** The canvas follows the state *)

Section GuiFacts.
Context {Board : Type} `{RulesEngine Board}.

Lemma canvas_current_redraw (g : Gui) : canvas_current (gui_redraw_board g).
Proof. reflexivity. Qed.

Lemma gui_check_game_over_app (g : Gui) :
  fst (gui_check_game_over g) = fst (check_game_over (gui_app g))
  /\ gui_app (snd (gui_check_game_over g)) = snd (check_game_over (gui_app g))
  /\ canvas (snd (gui_check_game_over g)) = canvas g.
Proof.
  unfold gui_check_game_over. destruct (check_game_over (gui_app g)). auto.
Qed.

Lemma canvas_current_check (g : Gui) :
  canvas_current g -> canvas_current (snd (gui_check_game_over g)).
Proof.
  unfold canvas_current. intros Hcur.
  destruct (gui_check_game_over_app g) as [_ [Happ Hcanvas]].
  destruct (check_game_over_frame (gui_app g)) as [Hb [Hs _]].
  rewrite Hcanvas, Happ, Hb, Hs. exact Hcur.
Qed.

Lemma canvas_current_trigger (g : Gui) :
  canvas_current g -> canvas_current (gui_lift trigger_ai_move g).
Proof. unfold canvas_current. intros Hcur. exact Hcur. Qed.

Lemma gui_try_select_app (sq : Square) (g : Gui) :
  gui_app (gui_try_select sq g) = try_select sq (gui_app g).
Proof.
  unfold gui_try_select, try_select.
  now destruct (own_piece_at (board (gui_app g)) sq).
Qed.

Lemma gui_try_move_app (sel sq : Square) (g : Gui) :
  gui_app (gui_try_move sel sq g) = try_move sel sq (gui_app g).
Proof.
  unfold gui_try_move, try_move.
  destruct (is_legal (board (gui_app g)) (candidate_move (board (gui_app g)) sel sq)).
  - unfold gui_check_game_over.
    cbn [gui_app gui_redraw_board gui_lift].
    destruct (check_game_over _) as [over a]. now destruct over.
  - destruct (sq =? sel); [reflexivity|].
    now destruct (own_piece_at (board (gui_app g)) sq).
Qed.

Lemma gui_on_square_click_app (event : Event) (g : Gui) :
  gui_app (gui_on_square_click event g) = on_square_click event (gui_app g).
Proof.
  unfold gui_on_square_click, on_square_click.
  destruct (game_over (gui_app g)); [reflexivity|].
  destruct (negb (Color_eqb (turn (board (gui_app g))) WHITE)); [reflexivity|].
  destruct (selected_square (gui_app g)) as [sel|];
    [destruct (int_truth sel)|];
    auto using gui_try_select_app, gui_try_move_app.
Qed.

Lemma gui_execute_ai_move_app (r : nat) (g : Gui) :
  gui_app (gui_execute_ai_move r g) = execute_ai_move r (gui_app g).
Proof.
  unfold gui_execute_ai_move, execute_ai_move.
  destruct (game_over (gui_app g)); cbn [negb]; [reflexivity|].
  apply gui_check_game_over_app.
Qed.

Lemma canvas_current_select (sq : Square) (g : Gui) :
  canvas_current g -> canvas_current (gui_try_select sq g).
Proof.
  intros Hcur. unfold gui_try_select.
  destruct (own_piece_at (board (gui_app g)) sq);
    [apply canvas_current_redraw | exact Hcur].
Qed.

Lemma canvas_current_move (sel sq : Square) (g : Gui) :
  canvas_current g -> canvas_current (gui_try_move sel sq g).
Proof.
  intros Hcur. unfold gui_try_move.
  destruct (is_legal (board (gui_app g)) (candidate_move (board (gui_app g)) sel sq)).
  - match goal with
    | |- context [gui_check_game_over ?x] =>
        pose proof (canvas_current_check x (canvas_current_redraw _)) as Hc;
        destruct (gui_check_game_over x) as [over g4]
    end.
    cbn [snd] in Hc. destruct over; cbn [negb];
      [exact Hc | now apply canvas_current_trigger].
  - destruct (sq =? sel); [apply canvas_current_redraw|].
    destruct (own_piece_at (board (gui_app g)) sq); apply canvas_current_redraw.
Qed.

Lemma canvas_current_click (event : Event) (g : Gui) :
  canvas_current g -> canvas_current (gui_on_square_click event g).
Proof.
  intros Hcur. unfold gui_on_square_click.
  destruct (game_over (gui_app g)); [exact Hcur|].
  destruct (negb (Color_eqb (turn (board (gui_app g))) WHITE)); [exact Hcur|].
  destruct (selected_square (gui_app g)) as [sel|];
    [destruct (int_truth sel)|];
    auto using canvas_current_select, canvas_current_move.
Qed.

Lemma canvas_current_after (r : nat) (g : Gui) :
  canvas_current g -> canvas_current (gui_execute_ai_move r g).
Proof.
  intros Hcur. unfold gui_execute_ai_move.
  destruct (game_over (gui_app g)); cbn [negb]; [exact Hcur|].
  apply canvas_current_check, canvas_current_redraw.
Qed.

Lemma canvas_current_steps (g : Gui) :
  gui_steps init_gui g -> canvas_current g /\ reachable (gui_app g).
Proof.
  intros Hsteps. induction Hsteps as [| g1 g2 Hsteps [Hcur Hreach] Hstep].
  - split; [reflexivity | apply steps_refl].
  - destruct Hstep as [event g1 | r g1 n Hqueue].
    + split; [now apply canvas_current_click|].
      rewrite gui_on_square_click_app.
      eapply steps_next; [exact Hreach | apply step_click].
    + split.
      * apply canvas_current_after. exact Hcur.
      * rewrite gui_execute_ai_move_app.
        eapply steps_next; [exact Hreach | now apply step_after].
Qed.
End GuiFacts.

(** X10.  The handlers with the canvas change the application state as
    the handlers without it do, and after every run of clicks and AI
    callbacks from the start the canvas is what [redraw_board] draws for
    the current board and selection: no handler changes the board or the
    selection without redrawing afterwards. *)
Theorem canvas_shows_current_state (Board : Type) (E : RulesEngine Board) :
  (forall (event : Event) (g : Gui),
     gui_app (gui_on_square_click event g) = on_square_click event (gui_app g))
  /\ (forall (r : nat) (g : Gui),
        gui_app (gui_execute_ai_move r g) = execute_ai_move r (gui_app g))
  /\ (forall g : Gui, gui_steps init_gui g ->
        canvas g = draw_board (board (gui_app g)) (selected_square (gui_app g))
        /\ reachable (gui_app g)).
Proof.
  split; [|split].
  - intros event g. apply gui_on_square_click_app.
  - intros r g. apply gui_execute_ai_move_app.
  - intros g Hsteps. now apply canvas_current_steps.
Qed.

(** * The course of a game *)

Section GameFacts.
Context {Board : Type} `{RulesEngine Board}.

Lemma check_game_over_messages (s : App) :
  game_over (snd (check_game_over s))
  = (if is_game_over (board s) then true else game_over s)
  /\ messages (snd (check_game_over s))
     = (if is_game_over (board s)
        then messages s ++ [game_over_message (board s)] else messages s).
Proof. unfold check_game_over. now destruct (is_game_over (board s)). Qed.

Lemma execute_ai_move_board (r : nat) (s : App) :
  board (execute_ai_move r s)
  = (if game_over s then board s else snd (make_ai_move r (board s))).
Proof.
  unfold execute_ai_move. destruct (game_over s); cbn [negb]; [reflexivity|].
  match goal with
  | |- context [check_game_over ?x] =>
      destruct (check_game_over_frame x) as [Hb _]
  end.
  rewrite Hb. reflexivity.
Qed.

(** What the AI callback leaves when the game is in progress. *)
Lemma execute_ai_move_playing (r : nat) (s : App) :
  game_over s = false ->
  let b' := snd (make_ai_move r (board s)) in
  board (execute_ai_move r s) = b'
  /\ game_over (execute_ai_move r s) = is_game_over b'
  /\ messages (execute_ai_move r s)
     = (if is_game_over b' then messages s ++ [game_over_message b']
        else messages s).
Proof.
  intros Hover. unfold execute_ai_move. rewrite Hover. cbn [negb].
  match goal with
  | |- context [check_game_over ?x] =>
      destruct (check_game_over_frame x) as [Hb _];
      destruct (check_game_over_messages x) as [Hg Hm]
  end.
  rewrite Hb, Hg, Hm. cbn [board game_over messages redraw_board set_board].
  rewrite Hover. split; [reflexivity|]. split; [|reflexivity].
  now destruct (is_game_over _).
Qed.

Lemma reported_once_click (event : Event) (s : App) :
  reported_once s -> reported_once (on_square_click event s).
Proof.
  intros Honce.
  destruct (game_over s) eqn:Hover;
    [now rewrite on_square_click_guard by auto|].
  destruct (turn (board s)) eqn:Hturn;
    [|rewrite on_square_click_guard; [assumption | right; congruence]].
  rewrite on_square_click_playing by assumption.
  set (sq := get_square_from_mouse event).
  assert (Hselect : reported_once (try_select sq s)).
  { destruct (try_select_frame sq s) as [_ [Hg [_ [Hm _]]]].
    unfold reported_once. now rewrite Hg, Hm. }
  destruct (selected_square s) as [sel|]; [destruct (int_truth sel)|]; auto.
  unfold reported_once in Honce. rewrite Hover in Honce.
  destruct (is_legal (board s) (candidate_move (board s) sel sq)) eqn:Hlegal.
  - destruct (try_move_legal sel sq s Hlegal) as [_ [_ [_ Hrest]]].
    unfold reported_once. destruct (is_game_over _) in Hrest.
    + destruct Hrest as [-> [_ ->]]. now rewrite Honce.
    + destruct Hrest as [-> [_ ->]]. now rewrite Hover.
  - destruct (try_move_illegal sel sq s Hlegal) as [_ [Hg [_ [Hm _]]]].
    unfold reported_once. now rewrite Hg, Hm, Hover.
Qed.

Lemma reported_once_after (r : nat) (s : App) (n : nat) :
  reported_once s -> reported_once (execute_ai_move r (set_after_queue n s)).
Proof.
  intros Honce. destruct (game_over s) eqn:Hover.
  - rewrite execute_ai_move_over by exact Hover. exact Honce.
  - destruct (execute_ai_move_playing r (set_after_queue n s) Hover)
      as [_ [Hg Hm]].
    unfold reported_once in *. rewrite Hover in Honce. rewrite Hg, Hm.
    cbn [messages set_after_queue]. rewrite Honce.
    now destruct (is_game_over _).
Qed.

Lemma reported_once_steps (s s' : App) :
  steps s s' -> reported_once s -> reported_once s'.
Proof.
  intros Hsteps Honce.
  induction Hsteps as [| s1 s2 Hsteps IH Hstep]; [assumption|].
  destruct Hstep as [event s1 | r s1 n Hqueue].
  - now apply reported_once_click.
  - now apply reported_once_after.
Qed.
End GameFacts.

(** X11.  In every state the application reaches from its start the
    end-of-game message has been printed and shown exactly once if
    [game_over] is set, and never if it is not. *)
Theorem game_over_reported_once
    (Board : Type) (E : RulesEngine Board) (s : App) :
  reachable s ->
  (game_over s = true -> List.length (messages s) = 1%nat)
  /\ (game_over s = false -> messages s = []).
Proof.
  intros Hreach.
  assert (Honce : reported_once s)
    by (apply (reported_once_steps _ _ Hreach); reflexivity).
  unfold reported_once in Honce.
  destruct (game_over s); split; intros; congruence.
Qed.

Lemma game_over_reported_once_witness :
  List.length (messages MiniChess.fools_mate) = 1%nat.
Proof.
  apply (game_over_reported_once _ MiniChess.engine);
    [exact fools_mate_reachable | vm_compute; reflexivity].
Defined.

Section TurnFacts.
Context {Board : Type} `{RulesEngine Board}.
Hypothesis turn_push : forall (b : Board) (m : Move),
  is_legal b m = true -> turn (push b m) = opposite (turn b).

Lemma callback_ready_init : callback_ready init_app.
Proof. split; cbn; [lia | discriminate]. Qed.

Lemma callback_ready_idle (s : App) :
  after_queue s = 0%nat -> callback_ready s.
Proof. intros Hq. split; rewrite Hq; [lia | discriminate]. Qed.

Lemma callback_ready_click (event : Event) (s : App) :
  callback_ready s -> callback_ready (on_square_click event s).
Proof.
  intros Hready.
  destruct (game_over s) eqn:Hover;
    [now rewrite on_square_click_guard by auto|].
  destruct (turn (board s)) eqn:Hturn;
    [|rewrite on_square_click_guard; [assumption | right; congruence]].
  assert (Hqueue : after_queue s = 0%nat).
  { destruct Hready as [Hle Hone].
    destruct (after_queue s) as [|[|k]] eqn:Hq; [reflexivity | | lia].
    destruct Hone as [Hblack _]; [reflexivity | congruence]. }
  rewrite on_square_click_playing by assumption.
  set (sq := get_square_from_mouse event).
  assert (Hselect : callback_ready (try_select sq s)).
  { apply callback_ready_idle.
    destruct (try_select_frame sq s) as [_ [_ [Hq _]]]. congruence. }
  destruct (selected_square s) as [sel|]; [destruct (int_truth sel)|]; auto.
  destruct (is_legal (board s) (candidate_move (board s) sel sq)) eqn:Hlegal.
  - destruct (try_move_legal sel sq s Hlegal) as [Hb [Hs [_ Hrest]]].
    destruct (is_game_over _) eqn:Hend in Hrest.
    + apply callback_ready_idle. destruct Hrest as [_ [-> _]]. exact Hqueue.
    + destruct Hrest as [Hg [Hq _]]. split; rewrite Hq, Hqueue; [lia|].
      intros _. rewrite Hb, Hg, turn_push, Hturn by assumption. auto.
  - apply callback_ready_idle.
    destruct (try_move_illegal sel sq s Hlegal) as [_ [_ [Hq _]]]. congruence.
Qed.

Lemma callback_ready_after (r : nat) (s : App) (n : nat) :
  after_queue s = S n ->
  callback_ready s -> callback_ready (execute_ai_move r (set_after_queue n s)).
Proof.
  intros Hqueue [Hle _]. apply callback_ready_idle.
  destruct (execute_ai_move_selection r (set_after_queue n s)) as [_ Hq].
  rewrite Hq. cbn. lia.
Qed.

Lemma callback_ready_steps (s : App) : reachable s -> callback_ready s.
Proof.
  intros Hreach.
  induction Hreach as [| s1 s2 Hsteps IH Hstep]; [apply callback_ready_init|].
  destruct Hstep as [event s1 | r s1 n Hqueue].
  - now apply callback_ready_click.
  - now apply callback_ready_after.
Qed.

Hypothesis pop_push : forall (b : Board) (m : Move),
  In m (legal_moves b) -> pop (push b m) = b.

Lemma played_steps (s : App) : reachable s -> played (board s).
Proof.
  intros Hreach.
  induction Hreach as [| s1 s2 Hsteps IH Hstep]; [apply played_start|].
  pose proof (callback_ready_steps s1 Hsteps) as Hready.
  destruct Hstep as [event s1 | r s1 n Hqueue].
  - destruct (game_over s1) eqn:Hover;
      [now rewrite on_square_click_guard by auto|].
    destruct (turn (board s1)) eqn:Hturn;
      [|rewrite on_square_click_guard; [assumption | right; congruence]].
    destruct (on_square_click_board event s1) as [->|[_ [sel [_ [Hlegal ->]]]]];
      [exact IH | apply played_human; assumption].
  - rewrite execute_ai_move_board. cbn [game_over board set_after_queue].
    destruct (game_over s1); [exact IH|].
    destruct (legal_moves (board s1)) as [|m0 ms] eqn:Hlegal.
    + unfold make_ai_move. rewrite Hlegal. exact IH.
    + destruct (make_ai_move_chooses (board s1) r) as [m [v [Hrun [Hin _]]]].
      * intros x Hx. now apply pop_push.
      * rewrite Hlegal. discriminate.
      * rewrite Hrun. cbn [snd]. apply played_ai; [exact IH| |exact Hin].
        destruct Hready as [Hle Hone]. apply Hone. lia.
Qed.
End TurnFacts.

(** X12.  In every state the application reaches from its start at most
    one AI callback is registered, and while one is, Black is to move,
    the game is in progress, and nothing is selected: the human cannot
    act until the AI has answered.  The engine passes the turn on every
    legal move. *)
Theorem one_callback_on_blacks_turn
    (Board : Type) (E : RulesEngine Board) (s : App) :
  (forall (b : Board) (m : Move),
     is_legal b m = true -> turn (push b m) = opposite (turn b)) ->
  reachable s ->
  (after_queue s <= 1)%nat
  /\ (after_queue s = 1%nat ->
      turn (board s) = BLACK /\ game_over s = false
      /\ is_game_over (board s) = false /\ selected_square s = None
      /\ forall event, on_square_click event s = s).
Proof.
  intros turn_push Hreach.
  destruct (callback_ready_steps turn_push s Hreach) as [Hle Hone].
  split; [exact Hle|]. intros Hq.
  destruct (Hone Hq) as [Hturn [Hover [Hend Hsel]]].
  repeat split; auto.
  intros event. apply on_square_click_guard. right. congruence.
Qed.

Lemma one_callback_on_blacks_turn_witness :
  (after_queue MiniChess.after_e4 <= 1)%nat
  /\ (after_queue MiniChess.after_e4 = 1%nat ->
      turn (board MiniChess.after_e4) = BLACK
      /\ game_over MiniChess.after_e4 = false
      /\ is_game_over (board MiniChess.after_e4) = false
      /\ selected_square MiniChess.after_e4 = None
      /\ forall event, on_square_click event MiniChess.after_e4 = MiniChess.after_e4).
Proof.
  apply (one_callback_on_blacks_turn _ MiniChess.engine).
  - intros b m _. apply mini_turn_push.
  - unfold reachable, MiniChess.after_e4.
    eapply steps_next; [|apply step_click_at].
    eapply steps_next; [|apply step_click_at].
    apply steps_refl.
Defined.

(** X13.  The AI is never asked to move without a legal move: whenever
    a registered AI callback runs in a state the application reaches,
    [make_ai_move] returns [True], the board becomes the board with one
    of Black's legal moves pushed, and no callback is left.  The engine
    passes the turn on every legal move, undoes [push] by [pop], and has a
    legal move whenever the game is not over. *)
Theorem ai_callback_always_moves
    (Board : Type) (E : RulesEngine Board) (s : App) (r n : nat) :
  (forall (b : Board) (m : Move),
     is_legal b m = true -> turn (push b m) = opposite (turn b)) ->
  (forall (b : Board) (m : Move), In m (legal_moves b) -> pop (push b m) = b) ->
  (forall b : Board, is_game_over b = false -> legal_moves b <> []) ->
  reachable s -> after_queue s = S n ->
  turn (board s) = BLACK
  /\ exists m, In m (legal_moves (board s))
       /\ make_ai_move r (board s) = (true, push (board s) m)
       /\ board (execute_ai_move r (set_after_queue n s)) = push (board s) m
       /\ after_queue (execute_ai_move r (set_after_queue n s)) = 0%nat.
Proof.
  intros turn_push pop_push Hmoves Hreach Hqueue.
  destruct (callback_ready_steps turn_push s Hreach) as [Hle Hone].
  assert (Hn : n = 0%nat) by lia. subst n.
  destruct (Hone Hqueue) as [Hturn [Hover [Hend _]]].
  split; [exact Hturn|].
  destruct (make_ai_move_chooses (board s) r) as [m [v [Hrun [Hin _]]]].
  - intros x Hx. now apply pop_push.
  - now apply Hmoves.
  - exists m. split; [exact Hin|]. split; [exact Hrun|].
    rewrite execute_ai_move_board. cbn [game_over board set_after_queue].
    rewrite Hover, Hrun. split; [reflexivity|].
    destruct (execute_ai_move_selection r (set_after_queue 0 s)) as [_ Hq].
    rewrite Hq. reflexivity.
Qed.

(** X14.  The application only ever plays chess by the engine's rules:
    the board of every state it reaches is the starting board with moves
    pushed one after the other, each one legal on the board it was pushed
    on, the human's when White was to move and the AI's when Black was.
    The engine passes the turn on every legal move and undoes [push] by
    [pop]. *)
Theorem reachable_board_is_played
    (Board : Type) (E : RulesEngine Board) (s : App) :
  (forall (b : Board) (m : Move),
     is_legal b m = true -> turn (push b m) = opposite (turn b)) ->
  (forall (b : Board) (m : Move), In m (legal_moves b) -> pop (push b m) = b) ->
  reachable s -> played (board s).
Proof. intros turn_push pop_push. now apply played_steps. Qed.

Lemma reachable_board_is_played_witness :
  played (board MiniChess.fools_mate).
Proof.
  apply (reachable_board_is_played _ MiniChess.engine).
  - intros b m _. apply mini_turn_push.
  - intros b m _. apply mini_pop_push.
  - exact fools_mate_reachable.
Defined.

Lemma mini_has_moves (b : MiniChess.Position) :
  is_game_over b = false -> legal_moves b <> [].
Proof.
  cbn [is_game_over legal_moves MiniChess.engine]. unfold MiniChess.no_moves.
  destruct (MiniChess.legal _ _); [discriminate | intros _; discriminate].
Qed.

Lemma ai_callback_always_moves_witness :
  turn (board MiniChess.after_e4) = BLACK
  /\ exists m, In m (legal_moves (board MiniChess.after_e4))
       /\ make_ai_move 3 (board MiniChess.after_e4)
          = (true, push (board MiniChess.after_e4) m)
       /\ board (execute_ai_move 3 (set_after_queue 0 MiniChess.after_e4))
          = push (board MiniChess.after_e4) m
       /\ after_queue (execute_ai_move 3 (set_after_queue 0 MiniChess.after_e4))
          = 0%nat.
Proof.
  apply (ai_callback_always_moves _ MiniChess.engine).
  - intros b m _. apply mini_turn_push.
  - intros b m _. apply mini_pop_push.
  - apply mini_has_moves.
  - unfold reachable, MiniChess.after_e4.
    eapply steps_next; [|apply step_click_at].
    eapply steps_next; [|apply step_click_at].
    apply steps_refl.
  - vm_compute. reflexivity.
Defined.

(** ** The tie-break *)

Section TieBreakFacts.
Context {Board : Type} `{RulesEngine Board}.
Variable b : Board.
Hypothesis pop_push : forall m, In m (legal_moves b) -> pop (push b m) = b.

(** The list [random.choice] draws from. *)
Lemma make_ai_move_best :
  legal_moves b <> [] ->
  exists v m0 rest,
    filter (fun m => score_of b m =? v) (legal_moves b) = m0 :: rest
    /\ (forall m, In m (legal_moves b) -> v <= score_of b m)
    /\ forall r, make_ai_move r b = (true, push b (random_choice r m0 rest)).
Proof.
  intros Hne.
  pose proof (search_loop_inv b (legal_moves b) [] _ pop_push
                (search_inv_start b)) as Hinv.
  cbn [app] in Hinv. destruct Hinv as [Hb Hbest].
  unfold make_ai_move.
  destruct (legal_moves b) as [|m1 ms] eqn:Elegal; [congruence|].
  remember (search_loop (m1 :: ms) (mkSearch b [] Inf)) as st.
  destruct (best_score st) as [|v]; [destruct Hbest; discriminate|].
  destruct Hbest as [Hmoves [Hnonempty Hlow]].
  destruct (best_moves st) as [|m0 rest]; [congruence|].
  exists v, m0, rest. split; [now rewrite Hmoves|]. split; [exact Hlow|].
  intros r. now rewrite Hb.
Qed.
End TieBreakFacts.

(** X15.  Every legal move whose resulting board has the least
    evaluation can be the one [make_ai_move] plays: for each such move
    there is a draw of [random.choice] that pushes it.  The engine undoes
    [push] by [pop]. *)
Theorem every_minimal_move_can_be_chosen
    (Board : Type) (E : RulesEngine Board) (b : Board) (m : Move) :
  (forall x, In x (legal_moves b) -> pop (push b x) = b) ->
  In m (legal_moves b) ->
  (forall m', In m' (legal_moves b) ->
     evaluate_board (push b m) <= evaluate_board (push b m')) ->
  exists r, make_ai_move r b = (true, push b m).
Proof.
  intros Hpop Hin Hmin.
  destruct (make_ai_move_best b Hpop) as [v [m0 [rest [Hbest [Hlow Hrun]]]]].
  { intros Habs. rewrite Habs in Hin. destruct Hin. }
  assert (Hm0 : In m0 (legal_moves b) /\ (score_of b m0 =? v) = true).
  { apply (proj1 (filter_In (fun x => score_of b x =? v) m0 (legal_moves b))).
    rewrite Hbest. now left. }
  destruct Hm0 as [Hm0 Hv]. apply Z.eqb_eq in Hv.
  assert (Hscore : score_of b m = v).
  { specialize (Hlow m Hin). specialize (Hmin m0 Hm0).
    rewrite <- !score_of_push in Hmin. lia. }
  assert (Hbestm : In m (m0 :: rest)).
  { rewrite <- Hbest. apply filter_In. split; [exact Hin|]. now apply Z.eqb_eq. }
  destruct (In_nth _ _ m0 Hbestm) as [i [Hi Hnth]].
  exists i. rewrite Hrun. unfold random_choice.
  rewrite Nat.mod_small by exact Hi. now rewrite Hnth.
Qed.

Lemma every_minimal_move_can_be_chosen_witness :
  exists r, make_ai_move r MiniChess.board_after_e4
            = (true, push MiniChess.board_after_e4 (mkMove 52 36 None)).
Proof.
  apply every_minimal_move_can_be_chosen.
  - intros x _. apply mini_pop_push.
  - vm_compute. tauto.
  - intros m' Hm'. vm_compute in Hm'.
    repeat (destruct Hm' as [<-|Hm']; [vm_compute; discriminate|]).
    destruct Hm'.
Defined.

(** ** Evaluation and the colours *)

Lemma mirrored_sum (g : Z -> Z) :
  fold_right Z.add 0 (map (fun sq => g (square_mirror sq)) SQUARES)
  = fold_right Z.add 0 (map g SQUARES).
Proof.
  rewrite <- (map_map square_mirror g).
  remember (map square_mirror SQUARES) as mirrored eqn:Emirrored.
  remember SQUARES as squares eqn:Esquares.
  vm_compute in Emirrored. vm_compute in Esquares. subst mirrored squares.
  cbn [map fold_right]. lia.
Qed.

Lemma negated_sum (g : Z -> Z) (l : list Z) :
  fold_right Z.add 0 (map (fun sq => - g sq) l)
  = - fold_right Z.add 0 (map g l).
Proof. induction l as [|x l IH]; simpl; [reflexivity | rewrite IH; lia]. Qed.

(** X16.  The evaluation is antisymmetric in the colours: if every
    square of one board holds the piece of the other colour that the
    other board holds on the mirrored square (same file, rank counted
    from the other side), the two evaluations are each other's
    negation. *)
Theorem evaluate_board_color_swap
    (Board : Type) (E : RulesEngine Board) (b b' : Board) :
  (forall sq, 0 <= sq < 64 ->
     piece_at b' sq = option_map swap_color (piece_at b (square_mirror sq))) ->
  evaluate_board b' = - evaluate_board b.
Proof.
  intros Hswap. rewrite !evaluate_board_signed_sum.
  rewrite <- (mirrored_sum (signed_value b)), <- negated_sum.
  f_equal. apply map_ext_in. intros sq Hsq.
  assert (Hrange : 0 <= sq < 64).
  { unfold SQUARES in Hsq. apply in_map_iff in Hsq.
    destruct Hsq as [n [<- Hn]]. apply in_seq in Hn. lia. }
  unfold signed_value. rewrite (Hswap sq Hrange).
  destruct (piece_at b (square_mirror sq)) as [[t c]|]; [|reflexivity].
  cbn. destruct c; cbn; lia.
Qed.

Lemma evaluate_board_color_swap_witness :
  evaluate_board MiniChess.pawn_on_e2 = - evaluate_board MiniChess.pawn_on_e7.
Proof.
  apply evaluate_board_color_swap. intros sq Hsq.
  assert (Hin : In sq SQUARES).
  { unfold SQUARES. apply in_map_iff. exists (Z.to_nat sq).
    split; [lia | apply in_seq; lia]. }
  unfold SQUARES in Hin. cbn in Hin.
  repeat (destruct Hin as [<-|Hin]; [vm_compute; reflexivity|]).
  destruct Hin.
Defined.

(** The two boards of the instance evaluate to -1 and 1. *)
Example pawn_up_pawn_down :
  evaluate_board MiniChess.pawn_on_e7 = 1
  /\ evaluate_board MiniChess.pawn_on_e2 = -1.
Proof. vm_compute. split; reflexivity. Qed.

(** ** Who has won *)

(** X17.  The checkmate message names the side that gave the mate: when
    a legal move the human clicks ends the game in checkmate the message
    shown is "Checkmate! White wins.", and when the move the AI callback
    plays does, it is "Checkmate! Black wins.".  The engine passes the
    turn on every legal move and undoes [push] by [pop]. *)
Theorem checkmate_names_the_winner (Board : Type) (E : RulesEngine Board) :
  (forall (b : Board) (m : Move),
     is_legal b m = true -> turn (push b m) = opposite (turn b)) ->
  (forall (b : Board) (m : Move),
     In m (legal_moves b) -> turn (push b m) = opposite (turn b)) ->
  (forall (b : Board) (m : Move), In m (legal_moves b) -> pop (push b m) = b) ->
  (forall (event : Event) (s : App) (sel : Square),
     game_over s = false -> turn (board s) = WHITE ->
     selected_square s = Some sel -> sel <> 0 ->
     is_legal (board s)
       (candidate_move (board s) sel (get_square_from_mouse event)) = true ->
     is_game_over (board (on_square_click event s)) = true ->
     is_checkmate (board (on_square_click event s)) = true ->
     messages (on_square_click event s)
     = messages s ++ ["Checkmate! White wins."%string])
  /\ (forall (r : nat) (s : App),
        game_over s = false -> turn (board s) = BLACK ->
        legal_moves (board s) <> [] ->
        is_game_over (board (execute_ai_move r s)) = true ->
        is_checkmate (board (execute_ai_move r s)) = true ->
        messages (execute_ai_move r s)
        = messages s ++ ["Checkmate! Black wins."%string]).
Proof.
  intros turn_human turn_ai pop_push. split.
  - intros event s sel Hover Hturn Hsel Hnz Hlegal.
    rewrite on_square_click_playing, Hsel, int_truth_nonzero by assumption.
    destruct (try_move_legal sel (get_square_from_mouse event) s Hlegal)
      as [Hb [_ [_ Hrest]]].
    rewrite Hb. intros Hend Hmate. rewrite Hend in Hrest.
    destruct Hrest as [_ [_ ->]]. unfold game_over_message.
    rewrite Hmate, turn_human, Hturn by assumption. reflexivity.
  - intros r s Hover Hturn Hne.
    destruct (execute_ai_move_playing r s Hover) as [Hb [_ Hm]].
    rewrite Hb, Hm.
    destruct (make_ai_move_chooses (board s) r) as [m [v [Hrun [Hin _]]]];
      [intros x Hx; now apply pop_push | exact Hne |].
    rewrite Hrun. cbn [snd]. intros Hend Hmate. rewrite Hend.
    unfold game_over_message.
    rewrite Hmate, turn_ai, Hturn by assumption. reflexivity.
Qed.

Lemma checkmate_names_the_winner_witness :
  messages (execute_ai_move 20 MiniChess.before_mate)
  = messages MiniChess.before_mate ++ ["Checkmate! Black wins."%string].
Proof.
  apply (checkmate_names_the_winner _ MiniChess.engine);
    try (intros b m _; apply mini_turn_push);
    try (intros b m _; apply mini_pop_push);
    try (vm_compute; reflexivity).
  vm_compute. discriminate.
Defined.

(** * Promotion *)

Section PromotionFacts.
Context {Board : Type} `{RulesEngine Board}.

(** The move built from a selected White piece, by the ranks alone. *)
Lemma candidate_move_white (b : Board) (sel sq : Square) (t : PieceType) :
  piece_at b sel = Some (mkPiece t WHITE) ->
  candidate_move b sel sq
  = mkMove sel sq (if pawn_reaches_final_rank b sel sq && (square_rank sel =? 6)
                   then Some QUEEN else None).
Proof.
  intros Hpiece.
  unfold candidate_move, candidate_promotion, pawn_reaches_final_rank.
  rewrite Hpiece. cbn [piece_type color final_rank].
  destruct (PieceType_eqb t PAWN), (square_rank sel =? 6), (square_rank sq =? 7);
    reflexivity.
Qed.

Lemma pawn_step_is_from_seventh (b : Board) (sel sq : Square) (t : PieceType) :
  piece_at b sel = Some (mkPiece t WHITE) ->
  pawn_steps_onto_final_rank b sel sq = true ->
  pawn_reaches_final_rank b sel sq && (square_rank sel =? 6) = true.
Proof.
  intros Hpiece. unfold pawn_steps_onto_final_rank, pawn_reaches_final_rank.
  rewrite Hpiece. cbn [piece_type color final_rank rank_before_final].
  destruct (PieceType_eqb t PAWN), (square_rank sel =? 6), (square_rank sq =? 7);
    cbn; congruence.
Qed.
End PromotionFacts.

(** C8, amended.  With a square other than a1 selected (it holds a White
    piece), White to move and the game in progress, the move that a click
    hands to the engine, testing it and pushing it if it is legal, goes
    from the selected square to the clicked square and carries promotion =
    queen exactly when the selected piece is a pawn, the clicked square is
    on the final rank of its colour, and the pawn stands on rank index 6;
    it carries promotion = none in every other case, also for a pawn
    clicked onto the final rank from further back.  Every pawn step onto
    the final rank that the rules allow gets the queen, and no other
    promotion piece occurs. *)
Theorem on_square_click_promotion
    (Board : Type) (E : RulesEngine Board) (event : Event) (s : App)
    (sel : Square) :
  game_over s = false -> turn (board s) = WHITE ->
  selected_square s = Some sel -> sel <> 0 -> selection_owned s ->
  let sq := get_square_from_mouse event in
  let m := mkMove sel sq
             (if pawn_reaches_final_rank (board s) sel sq && (square_rank sel =? 6)
              then Some QUEEN else None) in
  (is_legal (board s) m = true ->
     board (on_square_click event s) = push (board s) m
     /\ selected_square (on_square_click event s) = None)
  /\ (is_legal (board s) m = false ->
        board (on_square_click event s) = board s)
  /\ (pawn_steps_onto_final_rank (board s) sel sq = true ->
        promotion m = Some QUEEN)
  /\ (promotion m = Some QUEEN \/ promotion m = None).
Proof.
  intros Hover Hturn Hsel Hnz Howned sq m.
  destruct (Howned sel Hsel) as [t Hpiece].
  pose proof (candidate_move_white (board s) sel sq t Hpiece) as Hmove.
  fold m in Hmove.
  assert (Hclick : on_square_click event s = try_move sel sq s).
  { rewrite on_square_click_playing, Hsel, int_truth_nonzero by assumption.
    reflexivity. }
  rewrite Hclick. split; [|split; [|split]].
  - intros Hlegal. rewrite <- Hmove in Hlegal.
    destruct (try_move_legal sel sq s Hlegal) as [Hb [Hs _]].
    rewrite Hb, Hmove. auto.
  - intros Hillegal. rewrite <- Hmove in Hillegal.
    apply (try_move_illegal sel sq s Hillegal).
  - intros Hstep. unfold m. cbn [promotion].
    now rewrite (pawn_step_is_from_seventh (board s) sel sq t Hpiece Hstep).
  - unfold m. cbn [promotion].
    destruct (pawn_reaches_final_rank (board s) sel sq && (square_rank sel =? 6));
      auto.
Qed.

Lemma on_square_click_promotion_witness :
  is_legal MiniChess.pawn_on_e7 (mkMove 52 60 (Some QUEEN)) = true
  /\ board (on_square_click (MiniChess.click_at 4 7) MiniChess.pawn_on_e7_selected)
     = push MiniChess.pawn_on_e7 (mkMove 52 60 (Some QUEEN))
  /\ selected_square
       (on_square_click (MiniChess.click_at 4 7) MiniChess.pawn_on_e7_selected)
     = None.
Proof.
  assert (Hlegal : is_legal MiniChess.pawn_on_e7 (mkMove 52 60 (Some QUEEN)) = true)
    by (vm_compute; reflexivity).
  split; [exact Hlegal|].
  destruct (on_square_click_promotion _ MiniChess.engine (MiniChess.click_at 4 7)
              MiniChess.pawn_on_e7_selected 52) as [Hpush _];
    try (vm_compute; reflexivity);
    [lia | exact pawn_on_e7_selection_owned |].
  apply Hpush. exact Hlegal.
Defined.

(** C8 as stated fails, on either reading of "a pawn reaching the final
    rank for its colour".  By the words: from the start with the pawn on
    e2 selected, a click on e8 has a pawn moving onto the final rank of
    its colour, and the move built is e2-e8 with promotion = none; pushed
    by the engine that accepts every move, it leaves a pawn on e8.  By
    the rules: with the pawn on e7 selected, a click on h8 is no pawn
    step, and the move built is e7-h8 with promotion = queen; pushed by
    that engine, it leaves a queen on h8. *)
Lemma promotion_differs_from_reaching_final_rank :
  (get_square_from_mouse (MiniChess.click_at 4 7) = 60
   /\ selected_square MiniChess.e2_selected = Some 12
   /\ pawn_reaches_final_rank (board MiniChess.e2_selected) 12 60 = true
   /\ candidate_move (board MiniChess.e2_selected) 12 60 = mkMove 12 60 None
   /\ piece_at
        (board (@on_square_click _ MiniChess.accepting (MiniChess.click_at 4 7)
                  MiniChess.e2_selected)) 60
      = Some (mkPiece PAWN WHITE))
  /\ (get_square_from_mouse (MiniChess.click_at 7 7) = 63
      /\ selected_square MiniChess.pawn_on_e7_selected = Some 52
      /\ pawn_steps_onto_final_rank (board MiniChess.pawn_on_e7_selected) 52 63
         = false
      /\ candidate_move (board MiniChess.pawn_on_e7_selected) 52 63
         = mkMove 52 63 (Some QUEEN)
      /\ piece_at
           (board (@on_square_click _ MiniChess.accepting (MiniChess.click_at 7 7)
                     MiniChess.pawn_on_e7_selected)) 63
         = Some (mkPiece QUEEN WHITE)).
Proof. vm_compute. repeat split. Qed.
